(** * Quobot: the Nomic game state engine

    A shallow embedding of [nomic/game.py] and [nomic/quantity.py]:
    the quantity registry, the per-player value store, the rule-tree
    loader, the proposal list with its refresh/repost cascade, the
    ownership stamp of the lock and the export/reload snapshot.

    Python objects become records, methods become functions on them, and
    a method that mutates [self] or raises becomes a function from the
    state to an outcome and the state reached when it returned or raised.
    Strings are ASCII, integers are unbounded, ids of players, channels and
    messages are integers. *)

From Stdlib Require Import Ascii String ZArith QArith Lia.
From stdpp Require Import base option list strings gmap sorting numbers.

Set Default Proof Using "Type".
Local Open Scope Z_scope.

(** ** Exceptions and outcomes *)

(** What a [ValueError] reports. Those of [_check_quantity_name] and of
    [_check_proposal] carry the offending value, as the f-strings of the
    source do; [min()] of no argument raises one too. *)
Inductive value_error : Type :=
  | TooLong (name : string)
  | InvalidName (name : string)
  | InUse (name : string)
  | NoSuchProposal (n : Z)
  | EmptyMin.

(** [NotFound] is [discord.NotFound]. [OutOfFuel] is no Python exception:
    it marks a run the recursion bound of the model has cut short. *)
Inductive exn : Type :=
  | RuntimeError
  | AttributeError
  | TypeError
  | KeyError (key : string)
  | ValueError (why : value_error)
  | NotFound
  | OutOfFuel.

Inductive outcome (A : Type) : Type :=
  | Ok (a : A)
  | Raise (e : exn).
Arguments Ok {A} a.
Arguments Raise {A} e.

(** A method body: it runs from a state and ends in an outcome together
    with the state at that point, so a raise keeps every mutation made
    before it. *)
Definition M (S A : Type) : Type := S → outcome A * S.

Global Instance M_ret {S} : MRet (M S) := λ A a s, (Ok a, s).
Global Instance M_bind {S} : MBind (M S) := λ A B k m s,
  match m s with
  | (Ok a, s') => k a s'
  | (Raise e, s') => (Raise e, s')
  end.
Definition raise {S A} (e : exn) : M S A := λ s, (Raise e, s).
Definition read {S} : M S S := λ s, (Ok s, s).
Definition modify {S} (f : S → S) : M S unit := λ s, (Ok tt, f s).

(** [for x in xs: body x] *)
Fixpoint for_each {S A} (xs : list A) (body : A → M S unit) : M S unit :=
  match xs with
  | [] => mret tt
  | x :: xs' => body x ;; for_each xs' body
  end.

(** ** Strings *)

(** [str.lower] on the ASCII range. *)
Definition lower_ascii (c : ascii) : ascii :=
  let n := N_of_ascii c in
  if ((65 <=? n) && (n <=? 90))%N then ascii_of_N (n + 32) else c.

Fixpoint lower (s : string) : string :=
  match s with
  | EmptyString => EmptyString
  | String c s' => String (lower_ascii c) (lower s')
  end.

(** The character classes of the quantity-name pattern. *)
Definition is_digit (c : ascii) : bool :=
  let n := N_of_ascii c in ((48 <=? n) && (n <=? 57))%N.
Definition is_lower_letter (c : ascii) : bool :=
  let n := N_of_ascii c in ((97 <=? n) && (n <=? 122))%N.
(** [[0-9a-z]] *)
Definition name_head (c : ascii) : bool := is_digit c || is_lower_letter c.
(** [[0-9a-z\-_]] *)
Definition name_tail (c : ascii) : bool :=
  name_head c || (N_of_ascii c =? 45)%N || (N_of_ascii c =? 95)%N.

(** The longest prefix of [s] made of characters of class [cls]: what a
    greedy [cls*] consumes. *)
Fixpoint take_while (cls : ascii → bool) (s : string) : string :=
  match s with
  | EmptyString => EmptyString
  | String c s' => if cls c then String c (take_while cls s') else EmptyString
  end.

(** [re.match(r'[0-9a-z][0-9a-z\-_]*', name)]: the match object (here the
    text matched) or [None]. [re.match] anchors the pattern at the start of
    the string only. *)
Definition re_match_name (name : string) : option string :=
  match name with
  | String c rest => if name_head c then Some (String c (take_while name_tail rest)) else None
  | EmptyString => None
  end.

(** The full pattern [^[0-9a-z][0-9a-z\-_]*$]: the whole string is matched. *)
Fixpoint all_chars (cls : ascii → bool) (s : string) : bool :=
  match s with
  | EmptyString => true
  | String c s' => cls c && all_chars cls s'
  end.
Definition full_match_name (name : string) : bool :=
  match name with
  | String c rest => name_head c && all_chars name_tail rest
  | EmptyString => false
  end.

(** ** Numbers *)

(** A quantity value is a Python [int] or [float]. A float stands for the
    rational it denotes; [nan] and the infinities, on which [int()] raises,
    are not values of this type. *)
Inductive num : Type :=
  | Int (z : Z)
  | Float (q : Q).

Definition num_value (v : num) : Q :=
  match v with
  | Int z => inject_Z z
  | Float q => q
  end.

(** [a == b] on numbers compares the values, whatever the two types. *)
Definition py_eq (a b : num) : bool := Qeq_bool (num_value a) (num_value b).

(** [int(v)] truncates towards zero. *)
Definition py_int (v : num) : Z :=
  match v with
  | Int z => z
  | Float q => Z.quot (Qnum q) (Z.pos (Qden q))
  end.

(** [value = int(value)] when [int(value) == value], the first statement
    of [Quantity.set]. *)
Definition coerce (v : num) : num :=
  if py_eq (Int (py_int v)) v then Int (py_int v) else v.

(** [sorted] on pairs with distinct keys orders by key. *)
Definition key_le {K V} (le : relation K) : relation (K * V) :=
  λ a b, le a.1 b.1.
Global Instance key_le_dec {K V} (le : relation K) `{!RelDecision le} :
  RelDecision (@key_le K V le).
Proof. intros a b. unfold key_le. apply _. Defined.

(** ** PlayerDict *)

Module PlayerDict.
(** Modelled from the spec: [nomic/playerdict.py] is not part of the
    sources at hand. A PlayerDict is a sparse mapping from player identity
    to a value, with deterministic ordered iteration; it is built from a
    persisted mapping and exported as a plain mapping. Player identities
    are the integer ids of the members. *)
Definition sorted_items {V} (d : gmap Z V) : list (Z * V) :=
  merge_sort (key_le Z.le) (map_to_list d).
Definition export {V} (d : gmap Z V) : list (Z * V) := sorted_items d.
Definition init {V} (persisted : list (Z * V)) : gmap Z V :=
  list_to_map persisted.
End PlayerDict.

(** ** Quantity *)

Module Quantity.
(** The dataclass [_Quantity], without the back-reference [game]. *)
Record t : Type := mk {
  name : string;
  aliases : list string;
  players : gmap Z num;
  default_value : num;
}.

(** The persisted form: the keyword arguments the constructor [Quantity] takes and
    the ordered dict [export] returns. *)
Record persisted : Type := mk_persisted {
  p_name : string;
  p_aliases : list string;
  p_players : list (Z * num);
  p_default_value : num;
}.

Definition init (q : persisted) : t :=
  {| name := p_name q;
     aliases := p_aliases q;
     players := PlayerDict.init (p_players q);
     default_value := p_default_value q |}.

Definition export (q : t) : persisted :=
  {| p_name := name q;
     p_aliases := merge_sort String.le (aliases q);
     p_players := PlayerDict.export (players q);
     p_default_value := default_value q |}.

Definition with_players (q : t) (ps : gmap Z num) : t :=
  {| name := name q; aliases := aliases q; players := ps;
     default_value := default_value q |}.
Definition with_default (q : t) (d : num) : t :=
  {| name := name q; aliases := aliases q; players := players q;
     default_value := d |}.
Definition with_aliases (q : t) (al : list string) : t :=
  {| name := name q; aliases := al; players := players q;
     default_value := default_value q |}.
Definition with_name (q : t) (n : string) : t :=
  {| name := n; aliases := aliases q; players := players q;
     default_value := default_value q |}.

Definition set (q : t) (player : Z) (value : num) : t :=
  let value := coerce value in
  if py_eq value (default_value q) then
    if decide (is_Some (players q !! player))
    then with_players q (delete player (players q))
    else q
  else with_players q (<[player := value]> (players q)).

Definition get (q : t) (player : Z) : num :=
  default (default_value q) (players q !! player).
End Quantity.

(** ** Python dictionaries keyed by strings

    A [dict] keeps its keys in insertion order and the registry is searched
    in that order, so it is an association list with distinct keys. *)

Fixpoint dict_get {V} (d : list (string * V)) (k : string) : option V :=
  match d with
  | [] => None
  | (k', v) :: d' => if decide (k' = k) then Some v else dict_get d' k
  end.

(** [d[k] = v]: in place when [k] is a key, at the end otherwise. *)
Fixpoint dict_set {V} (d : list (string * V)) (k : string) (v : V) : list (string * V) :=
  match d with
  | [] => [(k, v)]
  | (k', v') :: d' => if decide (k' = k) then (k, v) :: d' else (k', v') :: dict_set d' k v
  end.

(** What [del d[k]] leaves when [k] is a key. *)
Fixpoint dict_del {V} (d : list (string * V)) (k : string) : list (string * V) :=
  match d with
  | [] => []
  | (k', v') :: d' => if decide (k' = k) then d' else (k', v') :: dict_del d' k
  end.

(** A mutation of the object stored under [k], seen through the dict. *)
Fixpoint dict_alter {V} (f : V → V) (d : list (string * V)) (k : string) : list (string * V) :=
  match d with
  | [] => []
  | (k', v') :: d' => if decide (k' = k) then (k', f v') :: d' else (k', v') :: dict_alter f d' k
  end.

(** Modelled from the spec: [utils.sort_dict] is not part of the sources at
    hand; snapshots are persisted as mappings whose keys are written in
    sorted order. *)
Definition sort_dict {V} (d : list (string * V)) : list (string * V) :=
  merge_sort (key_le String.le) d.

(** [l.remove(x)] when [x] is in [l]: the first occurrence goes. *)
Fixpoint list_remove_first (x : string) (l : list string) : list string :=
  match l with
  | [] => []
  | y :: l' => if decide (y = x) then l' else y :: list_remove_first x l'
  end.

(** ** The ownership stamp *)

(** The attribute [_owned_thread_id]. [Game.__init__] does not assign it,
    [__aenter__] stores the identity of the running thread and [__aexit__]
    stores [None]. *)
Inductive stamp : Type :=
  | Unassigned
  | Cleared
  | Owned (thread : Z).

(** [assert_locked] as run by the thread [me], the value of
    [threading.get_ident()]: reading an attribute never assigned raises
    [AttributeError], a stamp that is not [me] raises [RuntimeError]. *)
Definition check_stamp (me : Z) (st : stamp) : outcome unit :=
  match st with
  | Unassigned => Raise AttributeError
  | Cleared => Raise RuntimeError
  | Owned thread => if decide (thread = me) then Ok tt else Raise RuntimeError
  end.

(** ** QuantityManager *)

Module QuantityManager.
Import Quantity.

(** The manager's own state: the stamp of the lock, the registry
    [self.quantities] and what [get_db('quantities')] holds. *)
Record t : Type := mk {
  owned_thread_id : stamp;
  quantities : list (string * Quantity.t);
  db : list (string * Quantity.persisted);
}.

Definition with_quantities (s : t) (qs : list (string * Quantity.t)) : t :=
  {| owned_thread_id := owned_thread_id s; quantities := qs; db := db s |}.
Definition with_db (s : t) (d : list (string * Quantity.persisted)) : t :=
  {| owned_thread_id := owned_thread_id s; quantities := quantities s; db := d |}.

(** Modelled from the spec: [GameRepoManager], the base class that brings
    [assert_locked], is not part of the sources at hand; any lock-required
    operation invoked without the stamp present signals a programming
    error, as [Game.assert_locked] does. *)
Definition assert_locked (me : Z) : M t unit :=
  λ s, (check_stamp me (owned_thread_id s), s).

Definition load : M t unit :=
  modify (λ s, with_quantities s (prod_map id Quantity.init <$> db s)).

Definition save : M t unit :=
  modify (λ s, with_db s (sort_dict (prod_map id Quantity.export <$> quantities s))).

Definition get_quantity (qs : list (string * Quantity.t)) (name : string)
  : option Quantity.t :=
  let name := lower name in
  match dict_get qs name with
  | Some q => Some q
  | None => List.find (λ q, bool_decide (name ∈ aliases q)) (qs.*2)
  end.

(** [ignore] is [None] or a quantity object, which is truthy. *)
Definition _check_quantity_name (name : string) (ignore : option Quantity.t) : M t unit :=
  if decide (32 < String.length name)%nat then raise (ValueError (TooLong name))
  else if re_match_name name is None then raise (ValueError (InvalidName name))
  else if negb (if ignore is Some q then bool_decide (name ∈ aliases q) else false)
  then s ← read;
       if get_quantity (quantities s) name is Some _
       then raise (ValueError (InUse name))
       else mret tt
  else mret tt.

Definition add_quantity (me : Z) (quantity_name : string) (aliases : list string)
  : M t Quantity.t :=
  assert_locked me;;
  let quantity_name := lower quantity_name in
  let aliases := lower <$> aliases in
  for_each (quantity_name :: aliases) (λ name, _check_quantity_name name None);;
  let quantity := Quantity.mk quantity_name aliases ∅ (Int 0) in
  modify (λ s, with_quantities s (dict_set (quantities s) quantity_name quantity));;
  save;;
  mret quantity.

(** A quantity argument is an object the registry holds. It is named here
    by the key [quantity] under which the registry holds it; its fields
    are read there and a mutation of the object is a [dict_alter] at that
    key. *)
Definition the_quantity (quantity : string) : M t Quantity.t :=
  s ← read;
  if dict_get (quantities s) quantity is Some q then mret q
  else raise (KeyError quantity).

Definition mutate (quantity : string) (f : Quantity.t → Quantity.t) : M t unit :=
  modify (λ s, with_quantities s (dict_alter f (quantities s) quantity)).

Definition del_quantity (key : string) : M t unit :=
  s ← read;
  if dict_get (quantities s) key is Some _
  then modify (λ s, with_quantities s (dict_del (quantities s) key))
  else raise (KeyError key).

Definition rename_quantity (me : Z) (quantity : string) (new_name : string) : M t unit :=
  assert_locked me;;
  q ← the_quantity quantity;
  let new_name := lower new_name in
  _check_quantity_name new_name (Some q);;
  (if bool_decide (new_name ∈ aliases q)
   then mutate quantity (λ q, with_aliases q (list_remove_first new_name (aliases q)))
   else mret tt);;
  del_quantity (name q);;
  mutate quantity (λ q, with_name q new_name);;
  let renamed :=
    with_name (if bool_decide (new_name ∈ aliases q)
               then with_aliases q (list_remove_first new_name (aliases q))
               else q) new_name in
  modify (λ s, with_quantities s (dict_set (quantities s) new_name renamed));;
  save.

Definition remove_quantity (me : Z) (quantity : string) : M t unit :=
  assert_locked me;;
  q ← the_quantity quantity;
  del_quantity (name q);;
  save.

Definition set_quantity_aliases (me : Z) (quantity : string) (new_aliases : list string)
  : M t unit :=
  assert_locked me;;
  q ← the_quantity quantity;
  for_each new_aliases (λ name, _check_quantity_name name (Some q));;
  mutate quantity (λ q, with_aliases q (merge_sort String.le new_aliases));;
  save.

(** The two statements of [set_quantity_default] that act on the object:
    the assignment of the default, then [set] over the items as they were
    listed when the loop started. *)
Definition reset_default (new_default : num) (q : Quantity.t) : Quantity.t :=
  let q := with_default q new_default in
  foldl (λ q item, Quantity.set q item.1 item.2) q (PlayerDict.sorted_items (players q)).

Definition set_quantity_default (me : Z) (quantity : string) (new_default : num)
  : M t unit :=
  assert_locked me;;
  _ ← the_quantity quantity;
  mutate quantity (reset_default new_default);;
  save.
End QuantityManager.

(** ** Proposal *)

Module Proposal.
(** Modelled from the spec: [nomic/proposal.py] is not part of the sources
    at hand. A proposal holds its number [n], its author, a timestamp, a
    status, the id of the message that renders it (or none) and, for each
    of the vote types for, against and abstain, the vote count of each
    player. It is built from the persisted mapping of these fields and
    exported to it. *)
Inductive status_t : Type := voting | passed | failed.

Record votes_t : Type := mk_votes {
  votes_for : gmap Z Z;
  votes_against : gmap Z Z;
  votes_abstain : gmap Z Z;
}.

Record t : Type := mk {
  n : Z;
  author : Z;
  timestamp : Z;
  status : status_t;
  message_id : option Z;
  votes : votes_t;
}.

Record persisted : Type := mk_persisted {
  p_n : Z;
  p_author : Z;
  p_timestamp : Z;
  p_status : status_t;
  p_message : option Z;
  p_votes : votes_t;
}.

Definition init (p : persisted) : t :=
  {| n := p_n p; author := p_author p; timestamp := p_timestamp p;
     status := p_status p; message_id := p_message p; votes := p_votes p |}.

Definition export (p : t) : persisted :=
  {| p_n := n p; p_author := author p; p_timestamp := timestamp p;
     p_status := status p; p_message := message_id p; p_votes := votes p |}.

Definition with_message_id (p : t) (m : option Z) : t :=
  {| n := n p; author := author p; timestamp := timestamp p;
     status := status p; message_id := m; votes := votes p |}.

Definition with_n (p : t) (k : Z) : t :=
  {| n := k; author := author p; timestamp := timestamp p;
     status := status p; message_id := message_id p; votes := votes p |}.
End Proposal.

(** ** Rule *)

Module Rule.
(** Modelled from the spec: [nomic/rule.py] is not part of the sources at
    hand. A rule is a node of the rules document: a tag, a title and a
    content (or none), the tag of its parent (a non-owning link, resolved
    in the node table of the game; none for the root) and the ordered tags
    of its children. The persisted mapping has the same entries, [parent]
    and [children] being optional. *)
Record t : Type := mk {
  tag : string;
  title : option string;
  content : option string;
  parent_tag : option string;
  children : list string;
}.

Record persisted : Type := mk_persisted {
  p_tag : string;
  p_title : option string;
  p_content : option string;
  p_parent : option string;
  p_children : list string;
}.

Definition init (r : persisted) : t :=
  {| tag := p_tag r; title := p_title r; content := p_content r;
     parent_tag := p_parent r; children := p_children r |}.

Definition export (r : t) : persisted :=
  {| p_tag := tag r; p_title := title r; p_content := content r;
     p_parent := parent_tag r; p_children := children r |}.

(** [rule.parent]: the rule of the table that the parent link designates,
    or [None]. *)
Definition parent (table : gmap string t) (r : t) : option t :=
  p ← parent_tag r; table !! p.
End Rule.

(** ** Game *)

Module Game.
(** What [l.warning] is given by [_load_rule]. *)
Inductive warning : Type :=
  | NoSuchRule (tag : string)
  | Repetition (tag : string)
  | NoParent (tag : string)
  | NotAChild (tag parent : string).

(** What the proposals channel is asked to do. *)
Inductive event : Type :=
  | Edited (n : Z) (message : Z)
  | Deleted (messages : list Z)
  | Sent (n : Z) (message : Z).

(** Modelled from the spec: the chat platform is an external collaborator.
    Of the guild the game sees the ids of its channels, and of the
    proposals channel the ids of the messages present in it; [send]
    creates a message under the next unused id. The record also keeps
    what was asked of the channel and what was logged. *)
Record world : Type := mk_world {
  guild_channels : list Z;
  messages : list Z;
  next_message : Z;
  trace : list event;
  warnings : list warning;
}.

(** The mapping [export] returns and the store holds. [GameFlags] is
    declared outside the sources at hand and nothing below reads the
    flags: the entry [flags] is left out. *)
Record snapshot : Type := mk_snapshot {
  s_channels : option Z * option Z;
  s_player_activity : list (Z * Z);
  s_quantities : list (string * Quantity.persisted);
  s_proposals : list Proposal.persisted;
  s_rules : list (string * Rule.persisted);
}.

Record t : Type := mk {
  _lock : bool;
  owned_thread_id : stamp;
  guild : world;
  db : snapshot;
  proposals : list Proposal.t;
  quantities : list (string * Quantity.t);
  rules : gmap string Rule.t;
  player_activity : gmap Z Z;
  proposals_channel : option Z;
  rules_channel : option Z;
}.

Definition with_lock (g : t) (held : bool) (st : stamp) : t :=
  mk held st (guild g) (db g) (proposals g) (quantities g) (rules g)
     (player_activity g) (proposals_channel g) (rules_channel g).
Definition with_guild (g : t) (w : world) : t :=
  mk (_lock g) (owned_thread_id g) w (db g) (proposals g) (quantities g) (rules g)
     (player_activity g) (proposals_channel g) (rules_channel g).
Definition with_db (g : t) (d : snapshot) : t :=
  mk (_lock g) (owned_thread_id g) (guild g) d (proposals g) (quantities g) (rules g)
     (player_activity g) (proposals_channel g) (rules_channel g).
Definition with_proposals (g : t) (ps : list Proposal.t) : t :=
  mk (_lock g) (owned_thread_id g) (guild g) (db g) ps (quantities g) (rules g)
     (player_activity g) (proposals_channel g) (rules_channel g).
Definition with_rules (g : t) (rs : gmap string Rule.t) : t :=
  mk (_lock g) (owned_thread_id g) (guild g) (db g) (proposals g) (quantities g) rs
     (player_activity g) (proposals_channel g) (rules_channel g).
Definition with_channels (g : t) (pc rc : option Z) : t :=
  mk (_lock g) (owned_thread_id g) (guild g) (db g) (proposals g) (quantities g)
     (rules g) (player_activity g) pc rc.

Definition warn (w : warning) : M t unit :=
  modify (λ g, with_guild g
    (mk_world (guild_channels (guild g)) (messages (guild g))
       (next_message (guild g)) (trace (guild g)) (warnings (guild g) ++ [w]))).

Definition record (e : event) (w : world) : world :=
  mk_world (guild_channels w) (messages w) (next_message w) (trace w ++ [e])
    (warnings w).

(** *** The rule tree *)

(** [fuel] bounds the depth of the recursion; a nested call is made only
    after a tag of [rules_dict] that the table did not hold has been added
    to it, so the number of entries of [rules_dict] plus one is enough. *)
Fixpoint _load_rule (fuel : nat) (rules_dict : list (string * Rule.persisted))
    (tag : string) : M t unit :=
  match fuel with
  | O => raise OutOfFuel
  | S fuel =>
    match dict_get rules_dict tag with
    | None => warn (NoSuchRule tag)
    | Some entry =>
      g ← read;
      if decide (is_Some (rules g !! tag)) then warn (Repetition tag)
      else
        let rule := Rule.init entry in
        keep ←
          (if decide (Rule.tag rule ≠ "root") then
             match Rule.parent (rules g) rule with
             | None =>
                 warn (NoParent tag);;
                 (* [rule.parent.children] on [None] *)
                 raise AttributeError
             | Some parent =>
                 if decide (Rule.tag rule ∈ Rule.children parent) then mret true
                 else warn (NotAChild tag (Rule.tag parent));; mret false
             end
           else mret true);
        if keep : bool then
          modify (λ g, with_rules g (<[tag := rule]> (rules g)));;
          for_each (Rule.children rule) (_load_rule fuel rules_dict)
        else mret ()
    end
  end.

(** *** Construction and export *)

(** [guild.get_channel(id)] *)
Definition get_channel (w : world) (id : option Z) : option Z :=
  i ← id; if decide (i ∈ guild_channels w) then Some i else None.

(** What the store holds once [mutget] has put the defaults in an empty
    one. *)
Definition fresh_store : snapshot :=
  {| s_channels := (None, None);
     s_player_activity := [];
     s_quantities := [];
     s_proposals := [];
     s_rules := [("root", Rule.mk_persisted "root" None None None [])] |}.

(** [Game(guild, do_not_instantiate_directly)] on the store [store]: the
    outcome and the object as far as it was built. *)
Definition init (guild : world) (do_not_instantiate_directly : string)
    (store : snapshot) : outcome () * t :=
  let blank := mk false Unassigned guild store [] [] ∅ ∅ None None in
  if decide (do_not_instantiate_directly ≠ "ok") then (Raise TypeError, blank)
  else
    let g := mk false Unassigned guild store
               (Proposal.init <$> s_proposals store)
               (prod_map id Quantity.init <$> s_quantities store)
               ∅ ∅ None None in
    (_load_rule (S (length (s_rules store))) (s_rules store) "root";;
     modify (λ g, mk (_lock g) (owned_thread_id g) (Game.guild g) (db g)
                     (proposals g) (quantities g) (rules g)
                     (PlayerDict.init (s_player_activity store))
                     (get_channel guild (s_channels store).1)
                     (get_channel guild (s_channels store).2))) g.

Definition export (g : t) : snapshot :=
  {| s_channels := (proposals_channel g, rules_channel g);
     s_player_activity := PlayerDict.export (player_activity g);
     s_quantities := sort_dict (prod_map id Quantity.export <$> quantities g);
     s_proposals := Proposal.export <$> proposals g;
     s_rules := sort_dict (map_to_list (Rule.export <$> rules g)) |}.

(** *** The lock *)

(** [__aenter__] returns once [acquire] has the lock; a caller that finds
    it taken waits and takes no step ([None]). *)
Definition __aenter__ (me : Z) (g : t) : option t :=
  if _lock g then None else Some (with_lock g true (Owned me)).

(** [release] of a lock that is not taken raises [RuntimeError]. *)
Definition __aexit__ : M t unit :=
  λ g, if _lock g then (Ok (), with_lock g false Cleared)
       else (Raise RuntimeError, with_lock g false Cleared).

Definition assert_locked (me : Z) : M t unit :=
  λ g, (check_stamp me (owned_thread_id g), g).

Definition save (me : Z) : M t unit :=
  assert_locked me;;
  modify (λ g, with_db g (export g)).

(** *** Proposals *)

Definition has_proposal (g : t) (n : Z) : bool :=
  bool_decide (1 ≤ n ≤ Z.of_nat (length (proposals g))).

Definition get_proposal (g : t) (n : Z) : option Proposal.t :=
  if has_proposal g n then proposals g !! Z.to_nat (n - 1) else None.

(** Ids are integers here, so the [TypeError] branch has no input. *)
Definition _check_proposal (ns : list Z) : M t unit :=
  for_each ns (λ n,
    g ← read;
    if bool_decide (1 ≤ n ≤ Z.of_nat (length (proposals g))) then mret ()
    else raise (ValueError (NoSuchProposal n))).

(** Modelled from the spec: the messaging collaborator is not part of the
    sources at hand. The message of a proposal is there when its id is one
    of the messages present in the channel. *)
Definition message_in_channel (g : t) (p : Proposal.t) : option Z :=
  m ← Proposal.message_id p;
  if decide (m ∈ messages (guild g)) then Some m else None.

(** How [proposal.fetch_message()] answers for a message that is not there.
    [nomic/proposal.py] is not part of the sources at hand, and the sources
    read the call in two ways: [refresh_proposal] catches
    [discord.NotFound] around it, [repost_proposal] tests its result with
    [if m]. The answer is a parameter of the model, one and the same for
    every call. *)
Inductive missing_message : Type :=
  | RaisesNotFound
  | ReturnsNone.

(** [await proposal.fetch_message()] *)
Definition fetch_message (how : missing_message) (p : Proposal.t) : M t (option Z) :=
  g ← read;
  match message_in_channel g p with
  | Some m => mret (Some m)
  | None => if how is RaisesNotFound then raise NotFound else mret None
  end.

(** The body of the [try] of [refresh_proposal] for one id. The methods
    [clear_reactions], [edit] and [add_reaction] are called on what
    [fetch_message] returned: on [None] the first of them raises
    [AttributeError]. *)
Definition refresh_message (how : missing_message) (n : Z) : M t unit :=
  g ← read;
  match get_proposal g n with
  | None => raise AttributeError
  | Some proposal =>
      m ← fetch_message how proposal;
      match m with
      | None => raise AttributeError
      | Some m => modify (λ g, with_guild g (record (Edited n m) (guild g)))
      end
  end.

(** The loop of [refresh_proposal]: on [discord.NotFound] it runs the
    handler and returns; any other exception leaves the loop. *)
Fixpoint refresh_loop (how : missing_message) (repost : Z → M t unit) (ns : list Z)
  : M t unit :=
  match ns with
  | [] => mret ()
  | n :: rest =>
      λ g, match refresh_message how n g with
           | (Ok _, g') => refresh_loop how repost rest g'
           | (Raise NotFound, g') => repost n g'
           | (Raise e, g') => (Raise e, g')
           end
  end.

(** [sorted(set(ns))] *)
Definition sorted_set (ns : list Z) : list Z := merge_sort Z.le (remove_dups ns).

(** The methods of the channel raise [AttributeError] when no proposals
    channel is bound. *)
Definition delete_messages (ms : list Z) : M t unit :=
  g ← read;
  if proposals_channel g is None then raise AttributeError
  else modify (λ g,
    let w := guild g in
    with_guild g (record (Deleted ms)
      (mk_world (guild_channels w) (filter (λ m, m ∉ ms) (messages w))
         (next_message w) (trace w) (warnings w)))).

Definition send (n : Z) : M t Z :=
  g ← read;
  if proposals_channel g is None then raise AttributeError
  else
    let w := guild g in
    let m := next_message w in
    modify (λ g, with_guild g (record (Sent n m)
      (mk_world (guild_channels w) (messages w ++ [m]) (m + 1)
         (trace w) (warnings w))));;
    mret m.

(** [proposal.message_id = m.id] on the proposal numbered [n] *)
Definition set_message_id (n m : Z) : M t unit :=
  modify (λ g, with_proposals g
    (alter (λ p, Proposal.with_message_id p (Some m)) (Z.to_nat (n - 1)) (proposals g))).

(** The first loop of [repost_proposal], over [proposals]: the messages
    that [fetch_message] returns, those that are falsy left out. No [try]
    surrounds the call. *)
Fixpoint fetch_messages (how : missing_message) (proposals : list (option Proposal.t))
  : M t (list Z) :=
  match proposals with
  | [] => mret []
  | proposal :: rest =>
      m ← (if proposal is Some p then fetch_message how p else raise AttributeError);
      ms ← fetch_messages how rest;
      mret (if m is Some m then m :: ms else ms)
  end.

(** [repost_proposal], its last statement being the call [refresh]. *)
Definition repost (how : missing_message) (refresh : list Z → M t unit) (me : Z)
    (ns : list Z) : M t unit :=
  assert_locked me;;
  for_each ns (λ n, _check_proposal [n]);;
  match ns with
  | [] => raise (ValueError EmptyMin)
  | n0 :: ns' =>
    g ← read;
    let first := foldr Z.min n0 ns' in
    let proposal_range := seqZ first (Z.of_nat (length (proposals g)) + 1 - first) in
    let proposals := get_proposal g <$> proposal_range in
    proposal_messages ← fetch_messages how proposals;
    (if proposal_messages is [] then mret () else delete_messages proposal_messages);;
    for_each proposal_range (λ n, m ← send n; set_message_id n m);;
    save me;;
    refresh proposal_range
  end.

Fixpoint refresh_proposal (how : missing_message) (fuel : nat) (me : Z) (ns : list Z)
  : M t unit :=
  match fuel with
  | O => raise OutOfFuel
  | S fuel =>
    assert_locked me;;
    for_each ns (λ n, _check_proposal [n]);;
    refresh_loop how (λ n, repost how (refresh_proposal how fuel me) me [n]) (sorted_set ns)
  end.

Definition repost_proposal (how : missing_message) (fuel : nat) (me : Z) (ns : list Z)
  : M t unit :=
  repost how (refresh_proposal how fuel me) me ns.

(** Modelled from the spec: [remove_proposal] is not part of the sources
    at hand. Removing proposal [k] takes it out of the sequence, shifts the
    number of every proposal with a greater number down by one and
    persists, in one step under the lock. *)
Definition remove_proposal (me : Z) (k : Z) : M t unit :=
  assert_locked me;;
  _check_proposal [k];;
  modify (λ g, with_proposals g
    ((λ p, if bool_decide (k < Proposal.n p)
           then Proposal.with_n p (Proposal.n p - 1) else p)
       <$> delete (Z.to_nat (k - 1)) (proposals g)));;
  save me.
End Game.

(** * Vocabulary of the properties and sample states

    The predicates in which the properties below are stated, the closed
    forms of the states that the proposal cascade goes through, and the
    small concrete registries and games at which the properties are
    instantiated. *)

(** The sparse-storage invariant: no stored entry equals the default. *)
Definition sparse (q : Quantity.t) : Prop :=
  ∀ P x, Quantity.players q !! P = Some x → py_eq x (Quantity.default_value q) = false.

Ltac run_step :=
  cbv beta iota zeta delta [mbind M_bind mret M_ret read modify raise
    QuantityManager.assert_locked QuantityManager.the_quantity
    QuantityManager.mutate QuantityManager.save QuantityManager.del_quantity].

Definition points0 : Quantity.t := Quantity.mk "points" [] ∅ (Int 0).
Definition registry0 : QuantityManager.t :=
  QuantityManager.mk (Owned 7) [("points", points0)] [].

Ltac each_ascii c :=
  destruct c as [[] [] [] [] [] [] [] []].

(** [e] is the name or an alias of a quantity of the registry. *)
Definition registered (qs : list (string * Quantity.t)) (e : string) : Prop :=
  ∃ k q, (k, q) ∈ qs ∧ (e = Quantity.name q ∨ e ∈ Quantity.aliases q).

(** The registry indexes every quantity by its name, and what it stores is
    in lower case, as [add_quantity] leaves it. *)
Definition lower_keyed (qs : list (string * Quantity.t)) : Prop :=
  ∀ k q, (k, q) ∈ qs →
    Quantity.name q = k ∧ lower k = k ∧ Forall (λ a, lower a = a) (Quantity.aliases q).

Definition points1 : Quantity.t := Quantity.mk "points" ["pts"] ∅ (Int 0).
Definition registry1 : QuantityManager.t :=
  QuantityManager.mk (Owned 7) [("points", points1)] [].

Ltac run_game :=
  cbv beta iota zeta delta [mbind M_bind mret M_ret read modify raise
    Game.assert_locked Game.save Game.warn].

Definition world0 : Game.world := Game.mk_world [10; 11] [] 100 [] [].

(** A game as [get_game] builds it on an empty store. *)
Definition game0 : Game.t := (Game.init world0 "ok" Game.fresh_store).2.

(** The numbering invariant: the proposal that [get_proposal] returns for
    [i] has the number [i]. *)
Definition numbered (g : Game.t) : Prop :=
  ∀ i p, Game.get_proposal g i = Some p → Proposal.n p = i.

Definition proposal_of (n author : Z) (message : option Z) : Proposal.t :=
  Proposal.mk n author (1700000000 + n) Proposal.voting message
    (Proposal.mk_votes {[author := 1]} ∅ ∅).

(** Three proposals, held under the lock by thread 7; the message of
    proposal 2 is no longer in the channel. *)
Definition game3 : Game.t :=
  Game.mk true (Owned 7) (Game.mk_world [10; 11] [51; 53] 54 [] [])
    Game.fresh_store
    [proposal_of 1 41 (Some 51); proposal_of 2 42 (Some 52); proposal_of 3 43 (Some 53)]
    [] {["root" := Rule.mk "root" None None None []]} ∅ (Some 10) (Some 11).

Definition orphan_rules : list (string * Rule.persisted) :=
  [("root", Rule.mk_persisted "root" None None None ["a"]);
   ("a", Rule.mk_persisted "a" (Some "Scoring") (Some "text") None [])].

Definition dangling_rules : list (string * Rule.persisted) :=
  [("root", Rule.mk_persisted "root" None None None ["a"]);
   ("a", Rule.mk_persisted "a" (Some "Scoring") (Some "text") (Some "gone") [])].

Definition store_with_rules (rs : list (string * Rule.persisted)) : Game.snapshot :=
  Game.mk_snapshot (None, None) [] [] [] rs.

(** The message that renders proposal [n], when it is in the channel. *)
Definition message_of (g : Game.t) (n : Z) : option Z :=
  Game.get_proposal g n ≫= Game.message_in_channel g.

(** [g] after the channel was asked [es]. *)
Definition add_trace (g : Game.t) (es : list Game.event) : Game.t :=
  let w := Game.guild g in
  Game.with_guild g
    (Game.mk_world (Game.guild_channels w) (Game.messages w) (Game.next_message w)
       (Game.trace w ++ es) (Game.warnings w)).

(** The edits that refreshing the ids [l] asks for. *)
Definition edits (g : Game.t) (l : list Z) : list Game.event :=
  omap (λ n, Game.Edited n <$> message_of g n) l.

(** The proposals once the ids [l] have been given the messages [k + b]. *)
Definition stamped (b : Z) (ps : list Proposal.t) (l : list Z) : list Proposal.t :=
  foldl (λ ps k, alter (λ p, Proposal.with_message_id p (Some (k + b))) (Z.to_nat (k - 1)) ps)
        ps l.

(** The game once a placeholder was sent for each of the [c] ids from [i]
    on, the message of [k] being [k + b]. *)
Definition sent_state (b : Z) (g : Game.t) (i : Z) (c : nat) : Game.t :=
  let w := Game.guild g in
  Game.with_proposals
    (Game.with_guild g
       (Game.mk_world (Game.guild_channels w)
          (Game.messages w ++ ((λ k, k + b) <$> seqZ i (Z.of_nat c)))
          (Game.next_message w + Z.of_nat c)
          (Game.trace w ++ ((λ k, Game.Sent k (k + b)) <$> seqZ i (Z.of_nat c)))
          (Game.warnings w)))
    (stamped b (Game.proposals g) (seqZ i (Z.of_nat c))).

(** [g] after the messages [ms] were deleted. *)
Definition deleted (g : Game.t) (ms : list Z) : Game.t :=
  let w := Game.guild g in
  Game.with_guild g
    (Game.record (Game.Deleted ms)
       (Game.mk_world (Game.guild_channels w) (filter (λ m, m ∉ ms) (Game.messages w))
          (Game.next_message w) (Game.trace w) (Game.warnings w))).

(** The state in which [repost_proposal(n)] ends: the messages still there
    for the ids from [n] on are deleted, a placeholder is sent for each of
    these ids, the store is written, and each of them is refreshed. *)
Definition reposted (g : Game.t) (n : Z) : Game.t :=
  let c := Z.to_nat (Z.of_nat (length (Game.proposals g)) + 1 - n) in
  let old := omap (message_of g) (seqZ n (Z.of_nat c)) in
  let b := Game.next_message (Game.guild g) - n in
  let g1 := if old is [] then g else deleted g old in
  let g2 := sent_state b g1 n c in
  let g3 := Game.with_db g2 (Game.export g2) in
  add_trace g3 ((λ k, Game.Edited k (k + b)) <$> seqZ n (Z.of_nat c)).

Global Instance key_le_total {V} : Total (@key_le string V String.le).
Proof. intros a b. unfold key_le. apply (total String.le). Qed.

(** The tags that a descent from the root through the children lists
    meets. *)
Inductive reachable (T : gmap string Rule.t) : string → Prop :=
  | reach_root : reachable T "root"
  | reach_child p pr c :
      reachable T p → T !! p = Some pr → c ∈ Rule.children pr → reachable T c.

(** A well-formed rule table: every rule is held under its tag; every rule
    but the root names a parent of the table that lists it among its
    children, and no other rule lists it; every rule is met by the descent
    from the root. *)
Record rules_ok (T : gmap string Rule.t) : Prop := {
  rules_keyed : ∀ k r, T !! k = Some r → Rule.tag r = k;
  rules_parent : ∀ k r, T !! k = Some r → k ≠ "root" →
    ∃ p pr, Rule.parent_tag r = Some p ∧ T !! p = Some pr ∧ k ∈ Rule.children pr;
  rules_one_parent : ∀ k p p' pr pr',
    is_Some (T !! k) → T !! p = Some pr → T !! p' = Some pr' →
    k ∈ Rule.children pr → k ∈ Rule.children pr' → p = p';
  rules_reachable : ∀ k, is_Some (T !! k) → reachable T k;
}.

(** [g] with the rule table [R] and the warnings [ws]. *)
Definition loaded (g : Game.t) (R : gmap string Rule.t) (ws : list Game.warning) : Game.t :=
  let w := Game.guild g in
  Game.with_guild (Game.with_rules g R)
    (Game.mk_world (Game.guild_channels w) (Game.messages w) (Game.next_message w)
       (Game.trace w) ws).

(** Between the tables [R] and [R'] of a load towards [T]: every rule newly
    held has its children of [T] held as well. *)
Definition closed_new (T R R' : gmap string Rule.t) : Prop :=
  ∀ k r c, R' !! k = Some r → R !! k = None → c ∈ Rule.children r →
    is_Some (T !! c) → is_Some (R' !! c).

(** A game with a quantity whose aliases are not in sorted order and a
    rule below the root. *)
Definition points2 : Quantity.t :=
  Quantity.mk "points" ["pts"; "p"] {[41 := Int 5]} (Int 0).

Definition rules2 : gmap string Rule.t :=
  {["root" := Rule.mk "root" None None None ["scoring"];
    "scoring" := Rule.mk "scoring" (Some "Scoring") (Some "text") (Some "root") []]}.

Definition game2 : Game.t :=
  Game.mk true (Owned 7) (Game.mk_world [10; 11] [51] 52 [] [])
    Game.fresh_store [proposal_of 1 41 (Some 51)]
    [("points", points2)] rules2 {[41 := 1700000000]} (Some 10) (Some 11).

(** A quantity with two stored entries, and a registry that holds it under
    the lock of thread 7. *)
Definition points3 : Quantity.t :=
  Quantity.mk "points" [] {[41 := Int 5; 42 := Int 3]} (Int 0).
Definition registry3 : QuantityManager.t :=
  QuantityManager.mk (Owned 7) [("points", points3)] [].


(** Stored rules in which [b] is listed by the root and by [a]: the loader
    keeps the three rules and warns of the repetition. *)
Definition shared_rules : list (string * Rule.persisted) :=
  [("root", Rule.mk_persisted "root" None None None ["a"; "b"]);
   ("a", Rule.mk_persisted "a" (Some "A") (Some "text") (Some "root") ["b"]);
   ("b", Rule.mk_persisted "b" (Some "B") (Some "text") (Some "root") [])].

(** A game with the rule table built from [shared_rules], a quantity whose
    aliases are not in sorted order and one proposal. *)
Definition game4 : Game.t :=
  Game.mk true (Owned 7) (Game.mk_world [10; 11] [51] 52 [] [])
    Game.fresh_store [proposal_of 1 41 (Some 51)]
    [("points", points2)]
    (Game.rules (Game.init world0 "ok" (store_with_rules shared_rules)).2)
    {[41 := 1700000000]} (Some 10) (Some 11).

(** * Further methods

    The rule lookups and the activity bookkeeping of [Game], the
    process-wide registry of games, and the [vote] command of the cog
    [Voting]. *)

(** ** Rule tags *)

(** [[a-z\-]] *)
Definition tag_char (c : ascii) : bool :=
  is_lower_letter c || (N_of_ascii c =? 45)%N.

Fixpoint drop_while (cls : ascii → bool) (s : string) : string :=
  match s with
  | EmptyString => EmptyString
  | String c s' => if cls c then drop_while cls s' else s
  end.

Definition newline : string := String (ascii_of_N 10) EmptyString.

(** [re.match(r'^[a-z\-]+$', tag)] as a truth value: the greedy [+] takes
    the longest run of tag characters, which must not be empty, and [$]
    holds at the end of the string and just before a newline that ends the
    string. *)
Definition re_match_tag (tag : string) : bool :=
  match take_while tag_char tag with
  | EmptyString => false
  | String _ _ =>
      let rest := drop_while tag_char tag in
      bool_decide (rest = EmptyString) || bool_decide (rest = newline)
  end.

Module Rules.
(** How [_check_rule] ends when it raises: [InvalidTag] is its
    [ValueError], [NoSuchTag] its [KeyError]. Tags are strings here, so the
    [TypeError] branch has no input. *)
Inductive check_error : Type :=
  | InvalidTag (tag : string)
  | NoSuchTag (tag : string).

(** [_check_rule] on its arguments: [None] when it returns, the exception
    of the first tag that fails otherwise. *)
Fixpoint _check_rule (g : Game.t) (tags : list string) : option check_error :=
  match tags with
  | [] => None
  | tag :: rest =>
      if negb (re_match_tag tag) then Some (InvalidTag tag)
      else if decide (is_Some (Game.rules g !! tag)) then _check_rule g rest
      else Some (NoSuchTag tag)
  end.

(** [try: self._check_rule(tag) / except: return False / return True] *)
Definition has_rule (g : Game.t) (tag : string) : bool :=
  if _check_rule g [tag] is None then true else false.

Definition get_rule (g : Game.t) (tag : string) : option Rule.t :=
  if has_rule g tag then Game.rules g !! tag else None.

Definition root_rule (g : Game.t) : option Rule.t := get_rule g "root".
End Rules.

(** ** Player activity *)

Module Activity.
(** [utils.now()] and the flag [player_activity_cutoff] are declared outside
    the sources at hand: the time of the call is the argument [now], the
    cutoff in hours the argument [cutoff]. Users are named by their ids. *)
Definition with_player_activity (g : Game.t) (pa : gmap Z Z) : Game.t :=
  Game.mk (Game._lock g) (Game.owned_thread_id g) (Game.guild g) (Game.db g)
    (Game.proposals g) (Game.quantities g) (Game.rules g) pa
    (Game.proposals_channel g) (Game.rules_channel g).

Definition record_activity (me now : Z) (user : Z) : M Game.t unit :=
  Game.assert_locked me;;
  modify (λ g, with_player_activity g (<[user := now]> (Game.player_activity g))).

Definition get_activity_diff (now : Z) (g : Game.t) (user : Z) : option Z :=
  if decide (is_Some (Game.player_activity g !! user))
  then (λ t, now - t) <$> Game.player_activity g !! user
  else None.

(** The dict comprehension over the users of [player_activity]. *)
Definition activity_diffs (now : Z) (g : Game.t) : gmap Z Z :=
  map_imap (λ user _, get_activity_diff now g user) (Game.player_activity g).

Definition is_active (cutoff now : Z) (g : Game.t) (user : Z) : bool :=
  let diff := get_activity_diff now g user in
  let seconds_cutoff := cutoff * 3600 in
  if diff is Some d then bool_decide (d ≤ seconds_cutoff) else false.

Definition is_inactive (cutoff now : Z) (g : Game.t) (user : Z) : bool :=
  negb (is_active cutoff now g user).
End Activity.

(** ** The registry of games *)

Module Games.
(** [_GAMES] maps the id of a guild to its game. [get_db], which is imported
    from [database], gives the store of a guild; it is the argument
    [get_db] here. A game whose construction raises is not registered. *)
Definition get_game (get_db : Z → Game.snapshot) (guild_id : Z) (guild : Game.world)
  : M (gmap Z Game.t) Game.t :=
  games ← read;
  match games !! guild_id with
  | Some g => mret g
  | None =>
      match Game.init guild "ok" (get_db guild_id) with
      | (Ok _, g) => modify (λ games, <[guild_id := g]> games);; mret g
      | (Raise e, _) => raise e
      end
  end.
End Games.

(** ** The vote command *)

Module Voting.
(** [needle in haystack] on strings. *)
Fixpoint is_substring (needle haystack : string) : bool :=
  String.prefix needle haystack ||
  match haystack with
  | EmptyString => false
  | String _ rest => is_substring needle rest
  end.

(** The keyword arguments of one call of [game.vote]. *)
Record vote_call : Type := mk_call {
  proposal_num : Z;
  vote_type : string;
  user_id : Z;
  user_agent_id : Z;
  count : Z;
  reason : string;
}.

(** How the command ends: one of its two exceptions, or the calls of
    [game.vote] it makes, in order, when each of them returns. *)
Inductive result : Type :=
  | MissingPermissions
  | UserInputError
  | Voted (calls : list vote_call).

(** [author] is the id of [ctx.author], [is_bot_admin] what
    [is_bot_admin(ctx)] answers; [user] and [amount] are the optional
    arguments after conversion. In the chain of tests, [('abstain')] is a
    string, so [in] is the substring test. *)
Definition vote (author : Z) (is_bot_admin : bool) (user : option Z) (amount : option Z)
    (vote_type : string) (proposal_nums : list Z) (reason : string) : result :=
  let vote_type := lower vote_type in
  let amount := if amount is Some a then a else 1 in
  let user := if user is Some u then u else author in
  if bool_decide (user ≠ author) && negb is_bot_admin then MissingPermissions
  else
    let chosen :=
      if bool_decide (vote_type ∈ ["for"; "+"]) then Some "for"
      else if bool_decide (vote_type ∈ ["against"; "-"]) then Some "against"
      else if is_substring vote_type "abstain" then Some "abstain"
      else if bool_decide (vote_type ∈ ["remove"; "del"; "delete"; "rm"]) then Some "remove"
      else None in
    match chosen with
    | None => UserInputError
    | Some vote_type =>
        Voted ((λ n, mk_call n vote_type user author amount reason) <$> proposal_nums)
    end.
End Voting.

(** * Vocabulary of the further properties *)

(** What [_check_quantity_name(x, ignore=q)] lets through in the registry
    [qs]: at most 32 characters, a first character that the pattern takes,
    and either an alias of [q] or a string no lookup finds. Without [ignore]
    the last case is the only one. *)
Definition name_accepted (qs : list (string * Quantity.t)) (ignore : option Quantity.t)
    (x : string) : Prop :=
  (String.length x ≤ 32)%nat ∧ is_Some (re_match_name x) ∧
  ((∃ q, ignore = Some q ∧ x ∈ Quantity.aliases q) ∨
   QuantityManager.get_quantity qs x = None).

Global Instance name_accepted_dec qs ignore x : Decision (name_accepted qs ignore x).
Proof.
  unfold name_accepted.
  assert (Decision (∃ q, ignore = Some q ∧ x ∈ Quantity.aliases q)).
  { destruct ignore as [q|].
    - destruct (decide (x ∈ Quantity.aliases q)) as [H|H].
      + left. by exists q.
      + right. intros (q' & [= <-] & ?). done.
    - right. by intros (q' & [=] & _). }
  apply _.
Defined.

(** What the mutators of the registry raise when the stamp is not the
    caller's. *)
Definition lock_error (st : stamp) : exn :=
  if st is Unassigned then AttributeError else RuntimeError.

(** A quantity as it comes back from the store: its aliases sorted. *)
Definition sorted_aliases (q : Quantity.t) : Quantity.t :=
  Quantity.with_aliases q (merge_sort String.le (Quantity.aliases q)).

Global Instance key_le_transitive {V} : Transitive (@key_le string V String.le).
Proof. intros a b c. unfold key_le. apply transitivity. Qed.

(** What [_load_rule] keeps true of the rule table [R] while it reads the
    stored rules [D], whatever [D] holds: a rule of the table is the stored
    entry of its key, and a rule whose tag is not the root's has its parent
    in the table and is listed by it. *)
Definition tree_inv (D : list (string * Rule.persisted)) (R : gmap string Rule.t) : Prop :=
  (∀ k r, R !! k = Some r → Rule.init <$> dict_get D k = Some r) ∧
  (∀ k r, R !! k = Some r → Rule.tag r ≠ "root" →
     ∃ p pr, Rule.parent_tag r = Some p ∧ R !! p = Some pr ∧
             Rule.tag r ∈ Rule.children pr).

(** The keys of a stored mapping. *)
Definition store_keys {V} (D : list (string * V)) : gset string := list_to_set D.*1.

(** How a run of the loader ends: normally or in the [AttributeError] of
    the missing parent, in a state that differs from the one it started in
    by the rule table and the warnings; the table has grown and the
    invariant holds of it. *)
Definition load_safe (D : list (string * Rule.persisted)) (g0 : Game.t)
    (R : gmap string Rule.t) (res : outcome () * Game.t) : Prop :=
  ∃ o R' ws', res = (o, loaded g0 R' ws') ∧
    (o = Ok () ∨ o = Raise AttributeError) ∧ R ⊆ R' ∧ tree_inv D R'.


(** * Properties *)

(** ** Numbers *)

Lemma py_eq_true (a b : num) : py_eq a b = true ↔ (num_value a == num_value b)%Q.
Proof. unfold py_eq. apply Qeq_bool_iff. Qed.

Lemma py_eq_refl (a : num) : py_eq a a = true.
Proof. apply py_eq_true. reflexivity. Qed.

Lemma py_eq_sym (a b : num) : py_eq a b = py_eq b a.
Proof.
  destruct (py_eq a b) eqn:Hab, (py_eq b a) eqn:Hba; try done.
  - apply py_eq_true in Hab. symmetry in Hab. apply py_eq_true in Hab. congruence.
  - apply py_eq_true in Hba. symmetry in Hba. apply py_eq_true in Hba. congruence.
Qed.

Lemma py_eq_trans (a b c : num) :
  py_eq a b = true → py_eq b c = true → py_eq a c = true.
Proof.
  rewrite !py_eq_true. intros Hab Hbc. by rewrite Hab.
Qed.

Lemma py_eq_congr_l (a b c : num) :
  py_eq a b = true → py_eq a c = py_eq b c.
Proof.
  intros Hab. destruct (py_eq b c) eqn:Hbc.
  - by apply py_eq_trans with b.
  - destruct (py_eq a c) eqn:Hac; [|done].
    rewrite py_eq_sym in Hab. by rewrite (py_eq_trans _ _ _ Hab Hac) in Hbc.
Qed.

(** [coerce] keeps the value: only the type changes. *)
Lemma coerce_value (v : num) : py_eq (coerce v) v = true.
Proof.
  unfold coerce. destruct (py_eq (Int (py_int v)) v) eqn:E; [done|apply py_eq_refl].
Qed.

Lemma py_int_inject_Z (v : num) (z : Z) :
  (num_value v == inject_Z z)%Q → py_int v = z.
Proof.
  destruct v as [z'|[n d]]; simpl.
  - unfold Qeq. simpl. lia.
  - unfold Qeq. simpl. intros H.
    rewrite Z.mul_1_r in H. subst n.
    apply Z.quot_mul. lia.
Qed.

(** A number whose fractional part is zero becomes that [int]. *)
Lemma coerce_integral (v : num) (z : Z) :
  (num_value v == inject_Z z)%Q → coerce v = Int z.
Proof.
  intros H. unfold coerce. rewrite (py_int_inject_Z v z H).
  assert (py_eq (Int z) v = true) as ->; [|done].
  apply py_eq_true. simpl. by symmetry.
Qed.

(** Any other number is stored as it is. *)
Lemma coerce_fractional (v : num) :
  (∀ z, ¬ (num_value v == inject_Z z)%Q) → coerce v = v.
Proof.
  intros H. unfold coerce.
  destruct (py_eq (Int (py_int v)) v) eqn:E; [|done].
  apply py_eq_true in E. simpl in E. symmetry in E. by apply H in E.
Qed.

(** ** Quantity.set and Quantity.get *)

Lemma set_default_value q P v :
  Quantity.default_value (Quantity.set q P v) = Quantity.default_value q.
Proof.
  unfold Quantity.set. repeat case_match; done.
Qed.

Lemma set_players q P v :
  Quantity.players (Quantity.set q P v) =
    if py_eq (coerce v) (Quantity.default_value q)
    then delete P (Quantity.players q)
    else <[P := coerce v]> (Quantity.players q).
Proof.
  unfold Quantity.set. simpl.
  destruct (py_eq (coerce v) (Quantity.default_value q)); [|done].
  destruct (decide _) as [HP|HP]; [done|].
  symmetry. apply delete_id. by apply eq_None_not_Some.
Qed.

Lemma set_sparse q P v : sparse q → sparse (Quantity.set q P v).
Proof.
  intros Hq P' x. rewrite set_default_value, set_players.
  destruct (py_eq (coerce v) (Quantity.default_value q)) eqn:E.
  - intros Hx. apply lookup_delete_Some in Hx as [_ Hx]. by apply Hq in Hx.
  - intros Hx. apply lookup_insert_Some in Hx as [[_ <-]|[_ Hx]]; [done|].
    by apply Hq in Hx.
Qed.

Lemma sparse_absent q P :
  sparse q → py_eq (Quantity.get q P) (Quantity.default_value q) = true →
  Quantity.players q !! P = None.
Proof.
  intros Hq. unfold Quantity.get.
  destruct (Quantity.players q !! P) as [x|] eqn:E; [|done].
  simpl. intros Hx. apply Hq in E. congruence.
Qed.

(** C7. [Quantity.set(P, v)] stores [coerce v], the [int] of [v] when the
    fractional part of [v] is zero and [v] itself otherwise; when that
    number equals the default the entry of [P] is deleted, otherwise it is
    stored. [Quantity.get] returns the stored value or the default. After
    a [set] for [P], a [get(P)] equal to the default means that [P] has no
    stored entry; a quantity without stored entries satisfies the
    sparse-storage invariant, [set] keeps it, and under it a [get] equal to
    the default means, for every player, that the player has no stored
    entry. *)
Theorem set_get_sparse_storage (q : Quantity.t) (P : Z) (v : num) :
  (∀ z, (num_value v == inject_Z z)%Q → coerce v = Int z) ∧
  ((∀ z, ¬ (num_value v == inject_Z z)%Q) → coerce v = v) ∧
  (py_eq (coerce v) (Quantity.default_value q) = true →
     Quantity.players (Quantity.set q P v) = delete P (Quantity.players q)) ∧
  (py_eq (coerce v) (Quantity.default_value q) = false →
     Quantity.players (Quantity.set q P v) = <[P := coerce v]> (Quantity.players q)) ∧
  Quantity.default_value (Quantity.set q P v) = Quantity.default_value q ∧
  (∀ P', Quantity.get q P' =
           match Quantity.players q !! P' with
           | Some x => x
           | None => Quantity.default_value q
           end) ∧
  (py_eq (Quantity.get (Quantity.set q P v) P)
         (Quantity.default_value (Quantity.set q P v)) = true →
     Quantity.players (Quantity.set q P v) !! P = None) ∧
  sparse (Quantity.with_players q ∅) ∧
  (sparse q → sparse (Quantity.set q P v)) ∧
  (sparse q → ∀ P', py_eq (Quantity.get q P') (Quantity.default_value q) = true →
     Quantity.players q !! P' = None).
Proof.
  split_and!.
  - apply coerce_integral.
  - apply coerce_fractional.
  - intros E. by rewrite set_players, E.
  - intros E. by rewrite set_players, E.
  - apply set_default_value.
  - intros P'. unfold Quantity.get. by destruct (Quantity.players q !! P').
  - unfold Quantity.get. rewrite set_default_value, set_players.
    destruct (py_eq (coerce v) (Quantity.default_value q)) eqn:E.
    + intros _. apply lookup_delete_eq.
    + rewrite lookup_insert_eq. simpl. congruence.
  - intros P' x. simpl. by rewrite lookup_empty.
  - apply set_sparse.
  - intros Hq P'. by apply sparse_absent.
Qed.

(** ** set_quantity_default *)

(** What a run of [set] over a list of items leaves, when the items are
    entries of the store with distinct players. *)
Lemma foldl_set_lookup (l : list (Z * num)) (q : Quantity.t) (P : Z) :
  NoDup l.*1 →
  (∀ k v, (k, v) ∈ l → Quantity.players q !! k = Some v) →
  let q' := foldl (λ q item, Quantity.set q item.1 item.2) q l in
  Quantity.default_value q' = Quantity.default_value q ∧
  Quantity.players q' !! P =
    if decide (P ∈ l.*1)
    then x ← Quantity.players q !! P;
         if py_eq (coerce x) (Quantity.default_value q) then None else Some (coerce x)
    else Quantity.players q !! P.
Proof.
  revert q. induction l as [|[k v] l IH]; intros q Hnd Hin.
  - split; [done|]. rewrite decide_False; [done|]. apply not_elem_of_nil.
  - cbn [foldl fmap list_fmap fst snd] in *.
    apply list.NoDup_cons in Hnd as [Hk Hnd].
    destruct (IH (Quantity.set q k v)) as [IHd IHp]; [done| |].
    { intros k' v' Hkv. rewrite set_players.
      assert (k' ≠ k) as Hne.
      { intros ->. apply Hk. apply list_elem_of_fmap. by exists (k, v'). }
      destruct (py_eq _ _).
      - rewrite lookup_delete_ne by done. apply Hin. by right.
      - rewrite lookup_insert_ne by done. apply Hin. by right. }
    rewrite IHd, IHp, set_default_value. split; [done|].
    rewrite set_players.
    destruct (decide (P = k)) as [->|Hne].
    + rewrite decide_False by done. rewrite decide_True by left.
      rewrite (Hin k v) by left. simpl.
      destruct (py_eq _ _); [apply lookup_delete_eq|apply lookup_insert_eq].
    + assert (Quantity.players q !! P =
              (if py_eq (coerce v) (Quantity.default_value q)
               then delete k (Quantity.players q)
               else <[k:=coerce v]> (Quantity.players q)) !! P) as <-.
      { destruct (py_eq _ _);
          [by rewrite lookup_delete_ne|by rewrite lookup_insert_ne]. }
      destruct (decide (P ∈ l.*1)) as [HP|HP].
      * rewrite decide_True by (by right). done.
      * rewrite decide_False; [done|]. intros [?|?]%elem_of_cons; done.
Qed.

Lemma sorted_items_perm {V} (d : gmap Z V) :
  PlayerDict.sorted_items d ≡ₚ map_to_list d.
Proof. apply merge_sort_Permutation. Qed.

Lemma reset_default_lookup (d : num) (q : Quantity.t) (P : Z) :
  Quantity.default_value (QuantityManager.reset_default d q) = d ∧
  Quantity.players (QuantityManager.reset_default d q) !! P =
    x ← Quantity.players q !! P; if py_eq (coerce x) d then None else Some (coerce x).
Proof.
  unfold QuantityManager.reset_default.
  pose proof (foldl_set_lookup
    (PlayerDict.sorted_items (Quantity.players (Quantity.with_default q d)))
    (Quantity.with_default q d) P) as H.
  cbv zeta in H |- *.
  change (Quantity.players (Quantity.with_default q d)) with (Quantity.players q) in *.
  change (Quantity.default_value (Quantity.with_default q d)) with d in *.
  destruct H as [Hd Hp].
  - rewrite sorted_items_perm. apply NoDup_fst_map_to_list.
  - intros k v Hkv. rewrite sorted_items_perm in Hkv.
    by apply elem_of_map_to_list in Hkv.
  - split; [done|]. rewrite Hp. case_decide as HP; [done|].
    destruct (Quantity.players q !! P) as [x|] eqn:E; [|done].
    exfalso. apply HP. apply list_elem_of_fmap. exists (P, x). split; [done|].
    rewrite sorted_items_perm. by apply elem_of_map_to_list.
Qed.

(** ** Dictionaries *)

Lemma dict_get_alter {V} (f : V → V) (d : list (string * V)) (k k' : string) :
  dict_get (dict_alter f d k) k' =
    if decide (k' = k) then f <$> dict_get d k' else dict_get d k'.
Proof.
  induction d as [|[k0 v0] d IH]; simpl.
  - by case_decide.
  - destruct (decide (k0 = k)) as [->|Hk0]; simpl.
    + destruct (decide (k = k')) as [->|Hk].
      * by rewrite decide_True.
      * by rewrite decide_False.
    + destruct (decide (k0 = k')) as [->|Hk0']; [|done].
      by rewrite decide_False.
Qed.

Lemma dict_get_Some_elem {V} (d : list (string * V)) (k : string) (v : V) :
  dict_get d k = Some v → (k, v) ∈ d.
Proof.
  induction d as [|[k0 v0] d IH]; simpl; [done|].
  destruct (decide (k0 = k)) as [->|Hk].
  - intros [= ->]. left.
  - intros H. right. by apply IH.
Qed.

Lemma dict_get_None {V} (d : list (string * V)) (k : string) :
  dict_get d k = None ↔ k ∉ d.*1.
Proof.
  induction d as [|[k0 v0] d IH]; simpl.
  - split; [intros _; apply not_elem_of_nil|done].
  - destruct (decide (k0 = k)) as [->|Hk].
    + split; [done|]. intros H. exfalso. apply H. left.
    + rewrite IH, not_elem_of_cons.
      split; [intros ?; split; [congruence|done]|by intros [_ ?]].
Qed.

(** ** Running manager methods *)

Lemma check_stamp_owned (me : Z) (st : stamp) :
  st = Owned me → check_stamp me st = Ok ().
Proof. intros ->. simpl. by rewrite decide_True. Qed.

(** C8 (as amended). Under the lock, [set_quantity_default(Q, d)] makes [d]
    the default of [Q] and runs [set] again over every stored entry: after
    it no stored entry of [Q] equals [d], every player who had a stored
    entry reads the same value as before, and a player without a stored
    entry still has none and reads the new default [d]. *)
Theorem set_quantity_default_renormalizes
    (me : Z) (s : QuantityManager.t) (key : string) (q : Quantity.t) (d : num) :
  QuantityManager.owned_thread_id s = Owned me →
  dict_get (QuantityManager.quantities s) key = Some q →
  ∃ s', QuantityManager.set_quantity_default me key d s = (Ok tt, s') ∧
    let q' := QuantityManager.reset_default d q in
    dict_get (QuantityManager.quantities s') key = Some q' ∧
    Quantity.default_value q' = d ∧
    (∀ P x, Quantity.players q' !! P = Some x → py_eq x d = false) ∧
    (∀ P x, Quantity.players q !! P = Some x →
       py_eq (Quantity.get q' P) (Quantity.get q P) = true) ∧
    (∀ P, Quantity.players q !! P = None →
       Quantity.players q' !! P = None ∧ Quantity.get q' P = d).
Proof.
  intros Hown Hq. eexists. split.
  { unfold QuantityManager.set_quantity_default. run_step.
    rewrite (check_stamp_owned _ _ Hown), Hq. reflexivity. }
  cbv zeta. simpl.
  rewrite dict_get_alter, decide_True, Hq by done.
  split; [done|].
  split; [apply reset_default_lookup; exact 0|].
  split_and!.
  - intros P x. rewrite (proj2 (reset_default_lookup d q P)).
    destruct (Quantity.players q !! P) as [y|]; [|done]. simpl.
    destruct (py_eq (coerce y) d) eqn:E; [done|]. by intros [= <-].
  - intros P x Hx. unfold Quantity.get.
    rewrite (proj2 (reset_default_lookup d q P)), (proj1 (reset_default_lookup d q P)).
    rewrite Hx. simpl.
    destruct (py_eq (coerce x) d) eqn:E; simpl.
    + rewrite py_eq_sym in E. apply (py_eq_trans _ _ _ E), coerce_value.
    + apply coerce_value.
  - intros P HP. unfold Quantity.get.
    rewrite (proj2 (reset_default_lookup d q P)), (proj1 (reset_default_lookup d q P)).
    by rewrite HP.
Qed.

Lemma set_quantity_default_renormalizes_witness :
  ∃ s', QuantityManager.set_quantity_default 7 "points" (Int 5) registry3 = (Ok tt, s') ∧
    dict_get (QuantityManager.quantities s') "points"
      = Some (Quantity.mk "points" [] {[42 := Int 3]} (Int 5)) ∧
    (∀ P x, Quantity.players (QuantityManager.reset_default (Int 5) points3) !! P = Some x →
       py_eq x (Int 5) = false) ∧
    py_eq (Quantity.get (QuantityManager.reset_default (Int 5) points3) 41)
          (Quantity.get points3 41) = true ∧
    py_eq (Quantity.get (QuantityManager.reset_default (Int 5) points3) 42)
          (Quantity.get points3 42) = true ∧
    Quantity.get (QuantityManager.reset_default (Int 5) points3) 43 = Int 5.
Proof.
  destruct (set_quantity_default_renormalizes 7 registry3 "points" points3 (Int 5))
    as (s' & Hrun & Hget & _ & Hsparse & Hkept & Habsent); [reflexivity|reflexivity|].
  exists s'. split_and!.
  - exact Hrun.
  - rewrite Hget. vm_compute. reflexivity.
  - exact Hsparse.
  - apply (Hkept 41 (Int 5)). reflexivity.
  - apply (Hkept 42 (Int 3)). reflexivity.
  - apply (Habsent 43). reflexivity.
Defined.

(** C8 as stated fails: with default 0 and no stored entry, player 1 reads
    0; after the default becomes 5 the same player reads 5. *)
Lemma set_quantity_default_changes_absent_players :
  ∃ s' q',
    QuantityManager.set_quantity_default 7 "points" (Int 5) registry0 = (Ok tt, s') ∧
    dict_get (QuantityManager.quantities s') "points" = Some q' ∧
    ¬ (∀ P, py_eq (Quantity.get q' P) (Quantity.get points0 P) = true).
Proof.
  eexists _, _. split; [vm_compute; reflexivity|].
  split; [vm_compute; reflexivity|].
  intros H. specialize (H 1). vm_compute in H. discriminate H.
Qed.

(** ** Names *)

Lemma lower_ascii_idemp (c : ascii) : lower_ascii (lower_ascii c) = lower_ascii c.
Proof. each_ascii c; reflexivity. Qed.

Lemma lower_idemp (s : string) : lower (lower s) = lower s.
Proof.
  induction s as [|c s IH]; simpl; [done|]. by rewrite lower_ascii_idemp, IH.
Qed.

Lemma name_tail_lower (c : ascii) : name_tail c = true → lower_ascii c = c.
Proof. each_ascii c; intros H; try reflexivity; discriminate H. Qed.

Lemma name_head_tail (c : ascii) : name_head c = true → name_tail c = true.
Proof. unfold name_tail. by intros ->. Qed.

Lemma all_tail_lower (s : string) : all_chars name_tail s = true → lower s = s.
Proof.
  induction s as [|c s IH]; simpl; [done|].
  intros [Hc Hs]%andb_prop. by rewrite name_tail_lower, IH.
Qed.

(** A string the full pattern matches is in lower case and is matched by
    [re.match] as well. *)
Lemma full_match_lower (s : string) : full_match_name s = true → lower s = s.
Proof.
  destruct s as [|c s]; simpl; [done|].
  intros [Hc Hs]%andb_prop.
  by rewrite name_tail_lower, all_tail_lower by auto using name_head_tail.
Qed.

Lemma full_match_re_match (s : string) :
  full_match_name s = true → is_Some (re_match_name s).
Proof.
  destruct s as [|c s]; simpl; [done|].
  intros [-> _]%andb_prop. by eexists.
Qed.

(** ** The registry *)

Lemma dict_get_is_Some {V} (d : list (string * V)) (k : string) (v : V) :
  (k, v) ∈ d → is_Some (dict_get d k).
Proof.
  intros H. destruct (dict_get d k) eqn:E; [by eexists|].
  apply dict_get_None in E. exfalso. apply E.
  apply list_elem_of_fmap. by exists (k, v).
Qed.

Lemma get_quantity_registered (qs : list (string * Quantity.t)) (x e : string) :
  lower_keyed qs → registered qs e → lower x = lower e →
  is_Some (QuantityManager.get_quantity qs x).
Proof.
  intros Hqs (k & q & Hkq & He) Hx.
  destruct (Hqs k q Hkq) as (Hname & Hk & Hal).
  assert (lower e = e) as Hlow.
  { destruct He as [->|He]; [congruence|].
    rewrite list.Forall_forall in Hal. by apply Hal. }
  unfold QuantityManager.get_quantity. rewrite Hx, Hlow.
  destruct (dict_get qs e) as [q0|] eqn:E; [by eexists|].
  destruct He as [->|He].
  - rewrite Hname in E. apply dict_get_is_Some in Hkq as [? Hkq]. congruence.
  - destruct (List.find _ _) eqn:F; [by eexists|].
    exfalso. pose proof (List.find_none _ _ F q) as Hq. simpl in Hq.
    rewrite bool_decide_eq_false in Hq. apply Hq; [|done].
    apply list_elem_of_In, list_elem_of_fmap. by exists (k, q).
Qed.

(** A check reads the registry and never writes it; it ends normally or in
    a [ValueError]. *)
Lemma check_quantity_name_pure name ignore s :
  QuantityManager._check_quantity_name name ignore s = (Ok (), s) ∨
  ∃ why : value_error, QuantityManager._check_quantity_name name ignore s = (Raise (ValueError why), s).
Proof.
  unfold QuantityManager._check_quantity_name.
  destruct (decide _); [right; by eexists|].
  destruct (re_match_name name); [|right; by eexists].
  destruct (negb _); [|by left].
  run_step. destruct (QuantityManager.get_quantity _ _); [right; by eexists|by left].
Qed.

Lemma check_quantity_name_in_use name s :
  is_Some (QuantityManager.get_quantity (QuantityManager.quantities s) name) →
  ∃ why : value_error, QuantityManager._check_quantity_name name None s = (Raise (ValueError why), s).
Proof.
  intros [q Hq]. unfold QuantityManager._check_quantity_name.
  destruct (decide _); [by eexists|].
  destruct (re_match_name name); [|by eexists].
  simpl. run_step. rewrite Hq. by eexists.
Qed.

Lemma for_each_check_in_use (names : list string) (s : QuantityManager.t) (y : string) :
  y ∈ names →
  is_Some (QuantityManager.get_quantity (QuantityManager.quantities s) y) →
  ∃ why : value_error, for_each names (λ name, QuantityManager._check_quantity_name name None) s
         = (Raise (ValueError why), s).
Proof.
  intros Hy Hget. induction names as [|n names IH]; [by apply elem_of_nil in Hy|].
  simpl. run_step.
  destruct (decide (n = y)) as [->|Hne].
  - destruct (check_quantity_name_in_use y s Hget) as [why ->]. by eexists.
  - destruct (check_quantity_name_pure n None s) as [->|[why ->]]; [|by eexists].
    apply IH. apply elem_of_cons in Hy as [?|?]; [congruence|done].
Qed.

(** In a registry that indexes each quantity by its name and stores lower
    case only, as [add_quantity] and [rename_quantity] leave it, a name or
    an alias given to [add_quantity] that collides, case apart, with a name
    or an alias of the registry makes the call under the lock end in a
    [ValueError], and the manager is as it was before the call. *)
Lemma add_quantity_collision_rejected
    (me : Z) (s : QuantityManager.t) (quantity_name : string) (aliases : list string)
    (x e : string) :
  QuantityManager.owned_thread_id s = Owned me →
  lower_keyed (QuantityManager.quantities s) →
  x ∈ quantity_name :: aliases →
  registered (QuantityManager.quantities s) e →
  lower x = lower e →
  ∃ why : value_error, QuantityManager.add_quantity me quantity_name aliases s
         = (Raise (ValueError why), s).
Proof.
  intros Hown Hqs Hx He Hxe.
  unfold QuantityManager.add_quantity. run_step.
  rewrite (check_stamp_owned _ _ Hown). cbv beta iota.
  destruct (for_each_check_in_use (lower quantity_name :: (lower <$> aliases)) s (lower x))
    as [why Hwhy].
  - apply elem_of_cons in Hx as [->|Hx]; [left|right].
    apply list_elem_of_fmap. by exists x.
  - apply get_quantity_registered with e; [done..|]. by rewrite lower_idemp.
  - rewrite Hwhy. by exists why.
Qed.

Lemma registry1_lower_keyed : lower_keyed (QuantityManager.quantities registry1).
Proof.
  intros k q [= -> ->]%list_elem_of_singleton. split_and!; [done..|].
  by repeat constructor.
Qed.

(** C6 fails on the code. [set_quantity_aliases] stores its aliases as
    given, where [add_quantity] and [rename_quantity] lower-case theirs, and
    the pattern of [_check_quantity_name], anchored at the start only, lets
    the alias [sC] pass. The registry then holds the alias [sC]; the name
    [SC] collides with it, case apart, yet [add_quantity] looks for [sc],
    finds nothing, and registers and persists the new quantity. *)
Theorem add_quantity_accepts_case_collision :
  let s0 := QuantityManager.mk (Owned 7) [] [] in
  ∃ points s1 s2 sc s3,
    QuantityManager.add_quantity 7 "points" [] s0 = (Ok points, s1) ∧
    QuantityManager.set_quantity_aliases 7 "points" ["sC"] s1 = (Ok (), s2) ∧
    registered (QuantityManager.quantities s2) "sC" ∧
    lower "SC" = lower "sC" ∧
    QuantityManager.add_quantity 7 "SC" [] s2 = (Ok sc, s3) ∧
    QuantityManager.quantities s3 = QuantityManager.quantities s2 ++ [("sc", sc)] ∧
    dict_get (QuantityManager.db s3) "sc" = Some (Quantity.export sc) ∧
    dict_get (QuantityManager.db s2) "sc" = None.
Proof.
  cbv zeta. eexists _, _, _, _, _.
  split; [vm_compute; reflexivity|].
  split; [vm_compute; reflexivity|].
  split.
  { eexists "points", _. split; [left|]. right. left. }
  split; [reflexivity|].
  split; [vm_compute; reflexivity|].
  split_and!; reflexivity.
Qed.

(** C5 fails on the code: the name [a!] does not match the full pattern, yet
    [add_quantity] accepts it and registers the quantity, because
    [re.match] stops at the first character the pattern cannot take. *)
Theorem add_quantity_accepts_unmatched_name :
  let s := QuantityManager.mk (Owned 7) [] [] in
  full_match_name "a!" = false ∧
  re_match_name "a!" = Some "a" ∧
  ∃ q s', QuantityManager.add_quantity 7 "a!" [] s = (Ok q, s') ∧
          dict_get (QuantityManager.quantities s') "a!" = Some q.
Proof.
  cbv zeta. split; [reflexivity|]. split; [reflexivity|].
  eexists _, _. split; vm_compute; reflexivity.
Qed.

(** ** rename_quantity *)

Lemma dict_get_set_eq {V} (d : list (string * V)) (k : string) (v : V) :
  dict_get (dict_set d k v) k = Some v.
Proof.
  induction d as [|[k0 v0] d IH]; simpl.
  - by rewrite decide_True.
  - destruct (decide (k0 = k)) as [->|Hk]; simpl.
    + by rewrite decide_True.
    + by rewrite decide_False.
Qed.

Lemma check_quantity_name_refused_in_use name q s :
  name ∉ Quantity.aliases q →
  is_Some (QuantityManager.get_quantity (QuantityManager.quantities s) name) →
  ∃ why, QuantityManager._check_quantity_name name (Some q) s = (Raise (ValueError why), s) ∧
    ((String.length name ≤ 32)%nat → is_Some (re_match_name name) → why = InUse name).
Proof.
  intros Hal [q0 Hq0]. unfold QuantityManager._check_quantity_name.
  destruct (decide (32 < String.length name)%nat) as [Hlen|Hlen].
  { eexists. split; [done|]. lia. }
  destruct (re_match_name name) as [m|] eqn:Hm.
  2:{ eexists. split; [done|]. by intros _ [? ?]. }
  rewrite bool_decide_eq_false_2 by done. cbn [negb]. run_step.
  rewrite Hq0. by eexists.
Qed.

Lemma check_quantity_name_exempt name q s :
  (String.length name ≤ 32)%nat → is_Some (re_match_name name) →
  name ∈ Quantity.aliases q →
  QuantityManager._check_quantity_name name (Some q) s = (Ok (), s).
Proof.
  intros Hlen [m Hm] Hal. unfold QuantityManager._check_quantity_name.
  rewrite decide_False by lia. rewrite Hm.
  by rewrite bool_decide_eq_true_2.
Qed.

(** C10 (as amended). Under the lock, let the registry hold [Q] under its
    name, and let [name] lower-case to that name. When the name of [Q] is
    not one of its own aliases, [rename_quantity(Q, name)] ends in a
    [ValueError] and leaves the manager as it was; the error is the one that
    reports the name as already in use whenever the name has at most 32
    characters and begins as the pattern requires, as every name that
    [add_quantity] or [rename_quantity] has let in does. With [name]
    lower-casing to an alias of [Q] that passes these two tests, the call
    succeeds, and the registry then holds [Q] under that alias as its name,
    its first occurrence gone from the aliases. *)
Theorem rename_quantity_to_own_name_rejected
    (me : Z) (s : QuantityManager.t) (q : Quantity.t) (new_name : string) :
  QuantityManager.owned_thread_id s = Owned me →
  dict_get (QuantityManager.quantities s) (Quantity.name q) = Some q →
  (lower new_name = Quantity.name q →
   lower new_name ∉ Quantity.aliases q →
     ∃ why, QuantityManager.rename_quantity me (Quantity.name q) new_name s
              = (Raise (ValueError why), s) ∧
       ((String.length (lower new_name) ≤ 32)%nat →
        is_Some (re_match_name (lower new_name)) →
        why = InUse (Quantity.name q))) ∧
  (lower new_name ∈ Quantity.aliases q →
   (String.length (lower new_name) ≤ 32)%nat →
   is_Some (re_match_name (lower new_name)) →
     ∃ s', QuantityManager.rename_quantity me (Quantity.name q) new_name s = (Ok (), s') ∧
       dict_get (QuantityManager.quantities s') (lower new_name)
         = Some (Quantity.with_name
                   (Quantity.with_aliases q
                      (list_remove_first (lower new_name) (Quantity.aliases q)))
                   (lower new_name))).
Proof.
  intros Hown Hq. split.
  - intros Hnew Hal.
    destruct (check_quantity_name_refused_in_use (lower new_name) q s Hal)
      as (why & Hwhy & Hfmt).
    { unfold QuantityManager.get_quantity. rewrite lower_idemp, Hnew, Hq. by eexists. }
    exists why. split.
    + unfold QuantityManager.rename_quantity. run_step.
      rewrite (check_stamp_owned _ _ Hown), Hq. cbv beta iota.
      by rewrite Hwhy.
    + intros Hlen Hm. rewrite <- Hnew. by apply Hfmt.
  - intros Hnew Hlen Hm. eexists. split.
    + unfold QuantityManager.rename_quantity. run_step.
      rewrite (check_stamp_owned _ _ Hown), Hq. cbv beta iota.
      rewrite check_quantity_name_exempt by done.
      rewrite bool_decide_eq_true_2 by done. cbv beta iota.
      cbn [QuantityManager.quantities QuantityManager.with_quantities].
      rewrite dict_get_alter, decide_True, Hq by done.
      cbn [fmap option_fmap option_map]. reflexivity.
    + cbn [QuantityManager.quantities QuantityManager.with_quantities
           QuantityManager.with_db].
      apply dict_get_set_eq.
Qed.

Lemma rename_quantity_to_own_name_rejected_witness :
  QuantityManager.rename_quantity 7 "points" "Points" registry1
    = (Raise (ValueError (InUse "points")), registry1) ∧
  ∃ s', QuantityManager.rename_quantity 7 "points" "PTS" registry1 = (Ok (), s') ∧
        dict_get (QuantityManager.quantities s') "pts"
          = Some (Quantity.mk "pts" [] ∅ (Int 0)).
Proof.
  destruct (rename_quantity_to_own_name_rejected 7 registry1 points1 "Points")
    as [Hname _]; [reflexivity..|].
  destruct (rename_quantity_to_own_name_rejected 7 registry1 points1 "PTS")
    as [_ Halias]; [reflexivity..|].
  split.
  - destruct Hname as (why & Hrun & Hwhy).
    + reflexivity.
    + by intros [=]%list_elem_of_singleton.
    + rewrite Hwhy in Hrun; [exact Hrun|simpl; lia|by eexists].
  - destruct Halias as (s' & Hrun & Hget).
    + left.
    + simpl. lia.
    + by eexists.
    + exists s'. split; [exact Hrun|]. exact Hget.
Defined.

(** C10 as stated fails. [add_quantity] checks the name and the aliases
    against the registry, not against each other, so it registers [points]
    with the alias [points]; renaming that quantity to [Points], which is
    its own name, case apart, then succeeds, the name being exempt as one
    of the quantity's aliases. *)
Lemma rename_quantity_to_own_name_accepted :
  ∃ q s1 s2,
    QuantityManager.add_quantity 7 "points" ["points"] (QuantityManager.mk (Owned 7) [] [])
      = (Ok q, s1) ∧
    dict_get (QuantityManager.quantities s1) "points" = Some q ∧
    Quantity.name q = "points" ∧ lower "Points" = Quantity.name q ∧
    QuantityManager.rename_quantity 7 "points" "Points" s1 = (Ok (), s2) ∧
    ¬ ∃ why, QuantityManager.rename_quantity 7 "points" "Points" s1
             = (Raise (ValueError why), s1).
Proof.
  eexists _, _, _. split; [vm_compute; reflexivity|].
  split; [reflexivity|]. split; [reflexivity|]. split; [reflexivity|].
  split; [vm_compute; reflexivity|].
  intros [why Hwhy]. vm_compute in Hwhy. discriminate Hwhy.
Qed.

(** ** The lock and save *)




(** ** Proposal numbering *)

Lemma get_proposal_lookup (g : Game.t) (i : Z) :
  Game.get_proposal g i =
    if bool_decide (1 ≤ i ≤ Z.of_nat (length (Game.proposals g)))
    then Game.proposals g !! Z.to_nat (i - 1) else None.
Proof. reflexivity. Qed.

Lemma check_proposal_valid (g : Game.t) (n : Z) :
  1 ≤ n ≤ Z.of_nat (length (Game.proposals g)) →
  Game._check_proposal [n] g = (Ok (), g).
Proof.
  intros Hn. unfold Game._check_proposal. simpl. run_game.
  by rewrite bool_decide_eq_true_2.
Qed.

(** C3. In a game whose proposals are numbered by position, removing
    proposal [k] under the lock leaves a game numbered by position with one
    proposal less; every proposal that had a number [j > k] is now the
    proposal [j - 1], with its author, timestamp and votes; the proposals
    before [k] are untouched; and the store holds the new state. *)
Theorem remove_proposal_renumbers (me : Z) (g : Game.t) (k : Z) :
  Game.owned_thread_id g = Owned me →
  numbered g →
  1 ≤ k ≤ Z.of_nat (length (Game.proposals g)) →
  ∃ g', Game.remove_proposal me k g = (Ok (), g') ∧
    numbered g' ∧
    Z.of_nat (length (Game.proposals g')) = Z.of_nat (length (Game.proposals g)) - 1 ∧
    (∀ j p, k < j → Game.get_proposal g j = Some p →
       ∃ p', Game.get_proposal g' (j - 1) = Some p' ∧
             Proposal.n p' = j - 1 ∧
             Proposal.author p' = Proposal.author p ∧
             Proposal.timestamp p' = Proposal.timestamp p ∧
             Proposal.votes p' = Proposal.votes p) ∧
    (∀ j, j < k → Game.get_proposal g' j = Game.get_proposal g j) ∧
    Game.db g' = Game.export g'.
Proof.
  intros Hown Hnum Hk.
  set (shift := λ p, if bool_decide (k < Proposal.n p)
                     then Proposal.with_n p (Proposal.n p - 1) else p).
  set (ps' := shift <$> delete (Z.to_nat (k - 1)) (Game.proposals g)).
  assert (length ps' = (length (Game.proposals g) - 1)%nat) as Hlen.
  { unfold ps'. rewrite length_fmap, length_delete; [done|].
    apply lookup_lt_is_Some. lia. }
  assert (∀ j, 1 ≤ j ≤ Z.of_nat (length ps') →
            ps' !! Z.to_nat (j - 1) =
              if decide (j < k) then Game.proposals g !! Z.to_nat (j - 1)
              else (λ p, Proposal.with_n p j) <$> Game.proposals g !! Z.to_nat j)
    as Hps'.
  { intros j Hj. unfold ps'. rewrite list_lookup_fmap.
    destruct (decide (j < k)) as [Hjk|Hjk].
    - rewrite list_lookup_delete_lt by lia.
      destruct (Game.proposals g !! Z.to_nat (j - 1)) as [p|] eqn:E; [|done].
      simpl. f_equal. unfold shift.
      rewrite bool_decide_eq_false_2; [done|].
      rewrite (Hnum j p); [lia|].
      rewrite get_proposal_lookup, bool_decide_eq_true_2 by lia. done.
    - rewrite list_lookup_delete_ge by lia.
      replace (S (Z.to_nat (j - 1))) with (Z.to_nat j) by lia.
      destruct (Game.proposals g !! Z.to_nat j) as [p|] eqn:E; [|done].
      simpl. f_equal. unfold shift.
      assert (Proposal.n p = j + 1) as Hp.
      { apply Hnum. rewrite get_proposal_lookup, bool_decide_eq_true_2 by lia.
        by replace (Z.to_nat (j + 1 - 1)) with (Z.to_nat j) by lia. }
      rewrite bool_decide_eq_true_2 by lia. rewrite Hp. f_equal. lia. }
  eexists. split.
  { unfold Game.remove_proposal. run_game.
    rewrite (check_stamp_owned _ _ Hown), (check_proposal_valid g k Hk).
    cbn [Game.owned_thread_id Game.with_proposals].
    rewrite (check_stamp_owned _ _ Hown). reflexivity. }
  fold shift. fold ps'. split_and!.
  - intros i p. rewrite get_proposal_lookup.
    cbn [Game.proposals Game.with_db Game.with_proposals].
    case_bool_decide as Hi; [|done]. rewrite Hps' by done.
    destruct (decide (i < k)).
    + intros Hp. apply Hnum. by rewrite get_proposal_lookup, bool_decide_eq_true_2 by lia.
    + destruct (Game.proposals g !! Z.to_nat i); [|done]. by intros [= <-].
  - cbn [Game.proposals Game.with_db Game.with_proposals]. lia.
  - intros j p Hkj. rewrite !get_proposal_lookup.
    cbn [Game.proposals Game.with_db Game.with_proposals].
    case_bool_decide as Hj; [|done]. intros Hp.
    rewrite bool_decide_eq_true_2 by lia. rewrite Hps' by lia.
    rewrite decide_False by lia.
    exists (Proposal.with_n p (j - 1)). by rewrite Hp.
  - intros j Hjk. rewrite !get_proposal_lookup.
    cbn [Game.proposals Game.with_db Game.with_proposals].
    destruct (decide (1 ≤ j)) as [Hj|Hj].
    + rewrite !bool_decide_eq_true_2 by lia. rewrite Hps' by lia.
      by rewrite decide_True.
    + by rewrite !bool_decide_eq_false_2 by lia.
  - reflexivity.
Qed.

Lemma game3_numbered : numbered game3.
Proof.
  intros i p. rewrite get_proposal_lookup.
  case_bool_decide as Hi; [|done]. simpl in Hi.
  assert (i = 1 ∨ i = 2 ∨ i = 3) as [-> | [-> | ->]] by lia; by intros [= <-].
Qed.

Lemma remove_proposal_renumbers_witness :
  ∃ g', Game.remove_proposal 7 2 game3 = (Ok (), g') ∧
        Z.of_nat (length (Game.proposals g')) = 2 ∧
        ∃ p', Game.get_proposal g' 2 = Some p' ∧ Proposal.n p' = 2 ∧
              Proposal.author p' = 43.
Proof.
  destruct (remove_proposal_renumbers 7 game3 2) as (g' & Hrun & _ & Hlen & Hshift & _).
  - reflexivity.
  - exact game3_numbered.
  - simpl. lia.
  - exists g'. split; [exact Hrun|]. split; [exact Hlen|].
    destruct (Hshift 3 (proposal_of 3 43 (Some 53))) as (p' & Hp' & Hn & Ha & _);
      [lia|reflexivity|].
    exists p'. split; [exact Hp'|]. split; [exact Hn|exact Ha].
Defined.

(** ** The rule-tree loader on a corrupted mapping *)

(** C4 fails on the code: a rule listed by the root that names no parent,
    or a parent that the table does not hold, is logged and then, the
    branch having no [return], [rule.parent.children] is evaluated on
    [None]: the construction of the game ends in [AttributeError]. *)
Theorem init_aborts_on_unresolved_parent :
  (∃ g, Game.init world0 "ok" (store_with_rules orphan_rules) = (Raise AttributeError, g) ∧
        Game.warnings (Game.guild g) = [Game.NoParent "a"]) ∧
  (∃ g, Game.init world0 "ok" (store_with_rules dangling_rules) = (Raise AttributeError, g) ∧
        Game.warnings (Game.guild g) = [Game.NoParent "a"]).
Proof.
  split; eexists; split; vm_compute; reflexivity.
Qed.

(** ** Refreshing and reposting proposals *)

Lemma add_trace_nil g : add_trace g [] = g.
Proof.
  destruct g as [? ? [] ? ? ? ? ? ? ?]. unfold add_trace. simpl.
  by rewrite app_nil_r.
Qed.

Lemma add_trace_app g es1 es2 :
  add_trace (add_trace g es1) es2 = add_trace g (es1 ++ es2).
Proof. unfold add_trace. simpl. by rewrite app_assoc. Qed.

Lemma message_of_add_trace g es n : message_of (add_trace g es) n = message_of g n.
Proof. reflexivity. Qed.

Lemma refresh_message_Some how g n m :
  message_of g n = Some m →
  Game.refresh_message how n g = (Ok (), add_trace g [Game.Edited n m]).
Proof.
  unfold message_of, Game.refresh_message, Game.fetch_message. run_game.
  destruct (Game.get_proposal g n) as [p|]; [|done]. simpl.
  by intros ->.
Qed.

Lemma refresh_message_None how g n :
  is_Some (Game.get_proposal g n) → message_of g n = None →
  Game.refresh_message how n g
    = (Raise (if how is Game.RaisesNotFound then NotFound else AttributeError), g).
Proof.
  unfold message_of, Game.refresh_message, Game.fetch_message. run_game.
  intros [p ->]. simpl. intros ->. by destruct how.
Qed.

(** While every message is there the loop goes through the list. *)
Lemma refresh_loop_all how repost (l : list Z) (g : Game.t) :
  (∀ x, x ∈ l → is_Some (message_of g x)) →
  Game.refresh_loop how repost l g = (Ok (), add_trace g (edits g l)).
Proof.
  revert g. induction l as [|x l IH]; intros g Hl.
  - by rewrite add_trace_nil.
  - destruct (Hl x) as [m Hm]; [left|].
    cbn [Game.refresh_loop]. rewrite (refresh_message_Some how g x m Hm).
    rewrite IH by (intros y Hy; rewrite message_of_add_trace; apply Hl; by right).
    rewrite add_trace_app. unfold edits at 2. cbn [omap list_omap].
    rewrite Hm. reflexivity.
Qed.

(** At the first id whose message is not there the ids after it are not
    looked at: when [fetch_message] raises [discord.NotFound] the loop hands
    over to the handler, and when it returns [None] the loop ends in the
    [AttributeError] of the first method called on it. *)
Lemma refresh_loop_stop how repost (l1 l2 : list Z) (n : Z) (g : Game.t) :
  (∀ x, x ∈ l1 → is_Some (message_of g x)) →
  is_Some (Game.get_proposal g n) → message_of g n = None →
  Game.refresh_loop how repost (l1 ++ n :: l2) g
    = if how is Game.RaisesNotFound then repost n (add_trace g (edits g l1))
      else (Raise AttributeError, add_trace g (edits g l1)).
Proof.
  revert g. induction l1 as [|x l1 IH]; intros g Hl Hp Hn.
  - cbn [app Game.refresh_loop]. rewrite (refresh_message_None how g n Hp Hn).
    rewrite add_trace_nil. by destruct how.
  - destruct (Hl x) as [m Hm]; [left|].
    cbn [app Game.refresh_loop]. rewrite (refresh_message_Some how g x m Hm).
    rewrite IH; [|intros y Hy; rewrite message_of_add_trace; apply Hl; by right|done..].
    rewrite add_trace_app.
    change (edits (add_trace g [Game.Edited x m]) l1) with (edits g l1).
    assert (edits g (x :: l1) = [Game.Edited x m] ++ edits g l1) as ->; [|done].
    unfold edits. cbn [omap list_omap]. by rewrite Hm.
Qed.



Lemma sorted_set_split (ns : list Z) (n : Z) :
  n ∈ ns →
  ∃ l1 l2, Game.sorted_set ns = l1 ++ n :: l2 ∧
    (∀ x, x ∈ l1 → x ∈ ns ∧ x < n) ∧ (∀ x, x ∈ l2 → x ∈ ns ∧ n < x).
Proof.
  intros Hn.
  assert (∀ x, x ∈ Game.sorted_set ns ↔ x ∈ ns) as Helem.
  { intros x. unfold Game.sorted_set.
    by rewrite merge_sort_Permutation, elem_of_remove_dups. }
  assert (NoDup (Game.sorted_set ns)) as Hnd.
  { unfold Game.sorted_set. rewrite merge_sort_Permutation. apply NoDup_remove_dups. }
  assert (StronglySorted Z.le (Game.sorted_set ns)) as Hs.
  { apply StronglySorted_merge_sort; apply _. }
  destruct (list_elem_of_split (Game.sorted_set ns) n) as (l1 & l2 & Heq);
    [by apply Helem|].
  exists l1, l2. split; [done|]. rewrite Heq in Hnd, Hs, Helem.
  apply list.NoDup_app in Hnd as (_ & Hdisj & [Hn2 _]%list.NoDup_cons).
  split.
  - intros x Hx. split; [apply Helem, elem_of_app; by left|].
    assert (x ≤ n) by (eapply StronglySorted_app_1_elem_of; [done..|left]).
    assert (x ≠ n) by (intros ->; apply (Hdisj n Hx); left). lia.
  - intros x Hx. split; [apply Helem, elem_of_app; right; by right|].
    apply StronglySorted_app_1_r, StronglySorted_inv in Hs as [_ Hall].
    rewrite list.Forall_forall in Hall. specialize (Hall x Hx).
    assert (x ≠ n) by (by intros ->). lia.
Qed.

Lemma bind_Ok {S A B} (m : M S A) (k : A → M S B) (s s' : S) (a : A) :
  m s = (Ok a, s') → (m ≫= k) s = k a s'.
Proof. unfold mbind, M_bind. by intros ->. Qed.

Lemma bind_Raise {S A B} (m : M S A) (k : A → M S B) (s s' : S) (e : exn) :
  m s = (Raise e, s') → (m ≫= k) s = (Raise e, s').
Proof. unfold mbind, M_bind. by intros ->. Qed.

Lemma for_each_check_valid (l : list Z) (g : Game.t) :
  (∀ x, x ∈ l → 1 ≤ x ≤ Z.of_nat (length (Game.proposals g))) →
  for_each l (λ n, Game._check_proposal [n]) g = (Ok (), g).
Proof.
  induction l as [|x l IH]; intros Hl; [done|].
  cbn [for_each]. erewrite bind_Ok by (apply check_proposal_valid, Hl; left).
  apply IH. intros y Hy. apply Hl. by right.
Qed.





Lemma assert_locked_owned (me : Z) (g : Game.t) :
  Game.owned_thread_id g = Owned me → Game.assert_locked me g = (Ok (), g).
Proof. intros H. unfold Game.assert_locked. by rewrite (check_stamp_owned _ _ H). Qed.






Lemma get_proposal_is_Some (g : Game.t) (n : Z) :
  1 ≤ n ≤ Z.of_nat (length (Game.proposals g)) → is_Some (Game.get_proposal g n).
Proof.
  intros Hn. rewrite get_proposal_lookup, bool_decide_eq_true_2 by done.
  apply lookup_lt_is_Some. lia.
Qed.

(** The first loop of [repost_proposal] collects the messages that are
    there; it goes through when [fetch_message] returns [None] for the
    others, or when there are no others. *)
Lemma fetch_messages_Ok how (g : Game.t) (l : list Z) :
  (∀ x, x ∈ l → is_Some (Game.get_proposal g x)) →
  (how = Game.ReturnsNone ∨ ∀ x, x ∈ l → is_Some (message_of g x)) →
  Game.fetch_messages how (Game.get_proposal g <$> l) g = (Ok (omap (message_of g) l), g).
Proof.
  induction l as [|x l IH]; intros Hvalid Hhow; [done|].
  destruct (Hvalid x) as [p Hp]; [left|].
  cbn [fmap list_fmap Game.fetch_messages omap list_omap]. rewrite Hp.
  assert (Game.fetch_message how p g = (Ok (message_of g x), g)) as Hfetch.
  { unfold Game.fetch_message, message_of. rewrite Hp. cbn [mbind option_bind].
    run_game. destruct (Game.message_in_channel g p) as [m|] eqn:Em; [done|].
    destruct Hhow as [->|Hall]; [done|].
    destruct (Hall x) as [m Hm]; [left|].
    unfold message_of in Hm. rewrite Hp in Hm. cbn [mbind option_bind] in Hm. congruence. }
  erewrite bind_Ok by exact Hfetch.
  erewrite bind_Ok.
  2:{ apply IH.
      - intros y Hy. apply Hvalid. by right.
      - destruct Hhow as [->|Hall]; [by left|right].
        intros y Hy. apply Hall. by right. }
  by destruct (message_of g x).
Qed.

(** When [fetch_message] raises for a message that is not there, so does the
    loop, at the first such message. *)
Lemma fetch_messages_raises (g : Game.t) (n : Z) (rest : list Z) :
  is_Some (Game.get_proposal g n) → message_of g n = None →
  Game.fetch_messages Game.RaisesNotFound (Game.get_proposal g <$> n :: rest) g
    = (Raise NotFound, g).
Proof.
  intros [p Hp] Hn. cbn [fmap list_fmap Game.fetch_messages]. rewrite Hp.
  apply bind_Raise.
  unfold Game.fetch_message. unfold message_of in Hn. rewrite Hp in Hn.
  cbn [mbind option_bind] in Hn. run_game. by rewrite Hn.
Qed.



Lemma reposted_trace (g : Game.t) (n : Z) :
  let c := Z.to_nat (Z.of_nat (length (Game.proposals g)) + 1 - n) in
  let old := omap (message_of g) (seqZ n (Z.of_nat c)) in
  let b := Game.next_message (Game.guild g) - n in
  Game.trace (Game.guild (reposted g n)) =
    Game.trace (Game.guild g)
    ++ (if old is [] then [] else [Game.Deleted old])
    ++ ((λ k, Game.Sent k (k + b)) <$> seqZ n (Z.of_nat c))
    ++ ((λ k, Game.Edited k (k + b)) <$> seqZ n (Z.of_nat c)).
Proof.
  unfold reposted. cbv zeta.
  destruct (omap (message_of g) _); simpl; by rewrite <- ?app_assoc.
Qed.



(** C2 fails on the code, however [proposal.fetch_message()] answers for a
    message that is not there. Let [refresh_proposal] be called under the
    lock on valid ids, [n] being the lowest of them whose message is
    missing. The ids below [n] are refreshed, and at [n] the call raises:
    when [fetch_message] raises [discord.NotFound], the handler calls
    [repost_proposal(n)], whose first loop calls [fetch_message] on
    proposal [n] again, outside any [try], and the same [discord.NotFound]
    leaves the call; when [fetch_message] returns [None], the first method
    called on it raises [AttributeError], which the handler does not
    catch. Either way nothing is deleted, no message is created and the
    store is not written. *)
Theorem refresh_proposal_missing_message_raises
    (how : Game.missing_message) (fuel : nat) (me : Z) (g : Game.t) (ns : list Z) (n : Z) :
  Game.owned_thread_id g = Owned me →
  (∀ x, x ∈ ns → 1 ≤ x ≤ Z.of_nat (length (Game.proposals g))) →
  n ∈ ns →
  message_of g n = None →
  (∀ x, x ∈ ns → x < n → is_Some (message_of g x)) →
  ∃ l1 l2,
    Game.sorted_set ns = l1 ++ n :: l2 ∧
    Game.refresh_proposal how (S fuel) me ns g
      = (Raise (if how is Game.RaisesNotFound then NotFound else AttributeError),
         add_trace g (edits g l1)) ∧
    (∀ e, e ∈ edits g l1 → ∃ x m, e = Game.Edited x m ∧ x ∈ ns ∧ x < n).
Proof.
  intros Hown Hvalid Hn Hmissing Hbefore.
  destruct (sorted_set_split ns n Hn) as (l1 & l2 & Hsplit & Hl1 & _).
  pose proof (Hvalid n Hn) as Hnv.
  exists l1, l2. split; [done|]. split.
  - cbn [Game.refresh_proposal].
    erewrite bind_Ok by (by apply assert_locked_owned).
    erewrite bind_Ok by (by apply for_each_check_valid).
    rewrite Hsplit, refresh_loop_stop;
      [|intros x Hx; apply Hbefore; by apply Hl1|by apply get_proposal_is_Some|done].
    destruct how; [|done].
    set (g1 := add_trace g (edits g l1)).
    unfold Game.repost.
    erewrite bind_Ok by (by apply assert_locked_owned).
    erewrite bind_Ok
      by (apply for_each_check_valid; by intros x ->%list_elem_of_singleton).
    erewrite bind_Ok by reflexivity.
    cbv zeta. cbn [foldr].
    change (Game.proposals g1) with (Game.proposals g).
    rewrite seqZ_cons by lia.
    apply bind_Raise. apply fetch_messages_raises.
    + by apply get_proposal_is_Some.
    + done.
  - intros e He. unfold edits in He. apply list_elem_of_omap in He as (x & Hx & He).
    destruct (message_of g x) as [m|]; [|done]. injection He as <-.
    exists x, m. split; [done|]. by apply Hl1.
Qed.

(** The scenario of the specification: of three proposals the message of
    the second was deleted, and [refresh_proposal(2)] raises, under either
    answer of [fetch_message], leaving the game as it was. *)
Lemma refresh_proposal_missing_message_raises_witness :
  message_of game3 2 = None ∧
  Game.refresh_proposal Game.RaisesNotFound 1 7 [2] game3 = (Raise NotFound, game3) ∧
  Game.refresh_proposal Game.ReturnsNone 1 7 [2] game3 = (Raise AttributeError, game3).
Proof.
  split; [reflexivity|].
  assert (∀ how, ∃ l1 l2,
    Game.sorted_set [2] = l1 ++ 2 :: l2 ∧
    Game.refresh_proposal how 1 7 [2] game3
      = (Raise (if how is Game.RaisesNotFound then NotFound else AttributeError),
         add_trace game3 (edits game3 l1)) ∧
    (∀ e, e ∈ edits game3 l1 → ∃ x m, e = Game.Edited x m ∧ x ∈ [2] ∧ x < 2)) as H.
  { intros how. apply (refresh_proposal_missing_message_raises how 0 7 game3 [2] 2).
    - reflexivity.
    - intros x ->%list_elem_of_singleton. simpl. lia.
    - left.
    - reflexivity.
    - intros x ->%list_elem_of_singleton Hlt. lia. }
  assert (∀ l1 l2 : list Z, Game.sorted_set [2] = l1 ++ 2 :: l2 → l1 = []) as Hl1.
  { intros [|x l1] l2 Heq; [done|]. vm_compute in Heq.
    injection Heq as _ Heq. by destruct l1. }
  split.
  - destruct (H Game.RaisesNotFound) as (l1 & l2 & Hs & Hrun & _).
    rewrite (Hl1 l1 l2 Hs) in Hrun. exact Hrun.
  - destruct (H Game.ReturnsNone) as (l1 & l2 & Hs & Hrun & _).
    rewrite (Hl1 l1 l2 Hs) in Hrun. exact Hrun.
Defined.

(** ** Export and reload *)

Lemma Proposal_init_export (p : Proposal.t) : Proposal.init (Proposal.export p) = p.
Proof. by destruct p. Qed.

Lemma Rule_init_export (r : Rule.t) : Rule.init (Rule.export r) = r.
Proof. by destruct r. Qed.

Lemma PlayerDict_init_export {V} (d : gmap Z V) :
  PlayerDict.init (PlayerDict.export d) = d.
Proof.
  unfold PlayerDict.init, PlayerDict.export.
  rewrite <- (list_to_map_to_list d) at 2.
  apply list_to_map_proper; [|apply sorted_items_perm].
  rewrite sorted_items_perm. apply NoDup_fst_map_to_list.
Qed.

(** A quantity comes back with its aliases sorted and nothing else
    changed. *)
Lemma Quantity_init_export (q : Quantity.t) :
  Quantity.init (Quantity.export q)
    = Quantity.with_aliases q (merge_sort String.le (Quantity.aliases q)).
Proof.
  unfold Quantity.init, Quantity.export, Quantity.with_aliases. simpl.
  by rewrite PlayerDict_init_export.
Qed.

Lemma dict_get_fmap {V W} (f : V → W) (d : list (string * V)) (k : string) :
  dict_get (prod_map id f <$> d) k = f <$> dict_get d k.
Proof.
  induction d as [|[k0 v0] d IH]; simpl; [done|].
  by destruct (decide (k0 = k)).
Qed.

Lemma dict_get_elem_Some {V} (d : list (string * V)) (k : string) (v : V) :
  NoDup d.*1 → (k, v) ∈ d → dict_get d k = Some v.
Proof.
  induction d as [|[k0 v0] d IH]; simpl; [by intros _ ?%elem_of_nil|].
  intros [Hk0 Hnd]%list.NoDup_cons [[= <- <-]|Hin]%elem_of_cons.
  - by rewrite decide_True.
  - rewrite decide_False; [by apply IH|].
    intros ->. apply Hk0. apply list_elem_of_fmap. by exists (k, v).
Qed.

Lemma dict_get_perm {V} (d d' : list (string * V)) (k : string) :
  NoDup d.*1 → d ≡ₚ d' → dict_get d k = dict_get d' k.
Proof.
  intros Hnd Hperm.
  assert (NoDup d'.*1) as Hnd' by (by rewrite <- Hperm).
  destruct (dict_get d k) as [v|] eqn:E.
  - symmetry. apply dict_get_elem_Some; [done|].
    rewrite <- Hperm. by apply dict_get_Some_elem.
  - symmetry. apply dict_get_None. rewrite <- Hperm. by apply dict_get_None.
Qed.

Lemma dict_get_map_to_list {V} (m : gmap string V) (k : string) :
  dict_get (map_to_list m) k = m !! k.
Proof.
  destruct (m !! k) as [v|] eqn:E.
  - apply dict_get_elem_Some; [apply NoDup_fst_map_to_list|].
    by apply elem_of_map_to_list.
  - apply dict_get_None. intros ((k' & v) & -> & Hin)%list_elem_of_fmap.
    apply elem_of_map_to_list in Hin. simpl in *. congruence.
Qed.

Lemma sort_dict_perm {V} (d : list (string * V)) : sort_dict d ≡ₚ d.
Proof. apply merge_sort_Permutation. Qed.

Lemma dict_get_sort_dict {V} (d : list (string * V)) (k : string) :
  NoDup d.*1 → dict_get (sort_dict d) k = dict_get d k.
Proof.
  intros Hnd. symmetry. apply dict_get_perm; [done|]. symmetry. apply sort_dict_perm.
Qed.

(** What [sort_dict] returns is sorted by key. *)
Lemma sort_dict_sorted {V} (d : list (string * V)) :
  Sorted (key_le String.le) (sort_dict d).
Proof. apply Sorted_merge_sort. apply _. Qed.

Lemma fmap_fst_prod_map {V W} (f : V → W) (d : list (string * V)) :
  (prod_map id f <$> d).*1 = d.*1.
Proof. rewrite <- list_fmap_compose. by apply list_fmap_ext; intros ? []. Qed.

(** The quantities of the reloaded game: under each key the quantity that
    was exported, its aliases sorted. *)
Lemma reloaded_quantities (qs : list (string * Quantity.t)) (k : string) :
  NoDup qs.*1 →
  dict_get (prod_map id Quantity.init <$> sort_dict (prod_map id Quantity.export <$> qs)) k
    = (λ q, Quantity.with_aliases q (merge_sort String.le (Quantity.aliases q)))
        <$> dict_get qs k.
Proof.
  intros Hnd. rewrite dict_get_fmap, dict_get_sort_dict, dict_get_fmap
    by (by rewrite fmap_fst_prod_map).
  destruct (dict_get qs k); [|done]. simpl. by rewrite Quantity_init_export.
Qed.

(** *** The rule tree *)

Section loader.
Context (T : gmap string Rule.t) (D : list (string * Rule.persisted)).
Context (HD : ∀ k, dict_get D k = Rule.export <$> T !! k).
Context (Hok : rules_ok T).

Lemma load_rule_complete (fuel : nat) (g0 : Game.t) :
  ∀ (R : gmap string Rule.t) (ws : list Game.warning) (tag : string),
  R ⊆ T → (size T < fuel + size R)%nat →
  (tag = "root" ∨ ∃ p pr, R !! p = Some pr ∧ tag ∈ Rule.children pr) →
  ∃ R' ws',
    Game._load_rule fuel D tag (loaded g0 R ws) = (Ok (), loaded g0 R' ws') ∧
    R ⊆ R' ∧ R' ⊆ T ∧
    (is_Some (T !! tag) → is_Some (R' !! tag)) ∧
    closed_new T R R'.
Proof using HD Hok.
  induction fuel as [|f IHf]; intros R ws tag HRT Hsize Htag.
  { apply map_subseteq_size in HRT. lia. }
  assert (∀ cs R1 ws1,
    R1 ⊆ T → (size T < f + size R1)%nat →
    (∀ c, c ∈ cs → ∃ p pr, R1 !! p = Some pr ∧ c ∈ Rule.children pr) →
    ∃ R' ws',
      for_each cs (Game._load_rule f D) (loaded g0 R1 ws1) = (Ok (), loaded g0 R' ws') ∧
      R1 ⊆ R' ∧ R' ⊆ T ∧
      (∀ c, c ∈ cs → is_Some (T !! c) → is_Some (R' !! c)) ∧
      closed_new T R1 R') as Hinner.
  { induction cs as [|c cs IHcs]; intros R1 ws1 HR1 Hsz Hcs.
    - exists R1, ws1. split_and!; [done..| |].
      + by intros c ?%elem_of_nil.
      + intros k r c Hk Hk'. congruence.
    - destruct (IHf R1 ws1 c HR1 Hsz) as (R2 & ws2 & Hrun2 & H12 & H2T & Hc2 & Hcl2).
      { right. apply Hcs. left. }
      destruct (IHcs R2 ws2 H2T) as (R3 & ws3 & Hrun3 & H23 & H3T & Hc3 & Hcl3).
      { apply map_subseteq_size in H12. lia. }
      { intros c' Hc'. destruct (Hcs c') as (p & pr & Hp & Hin); [by right|].
        exists p, pr. split; [|done]. by eapply lookup_weaken. }
      exists R3, ws3. split_and!.
      + cbn [for_each]. by erewrite bind_Ok by exact Hrun2.
      + by etrans.
      + done.
      + intros c' [->|Hc']%elem_of_cons HT.
        * destruct (Hc2 HT) as [r Hr]. exists r. by eapply lookup_weaken.
        * by apply Hc3.
      + intros k r c' Hk Hk1 Hin HT.
        destruct (R2 !! k) as [r2|] eqn:E2.
        * assert (r2 = r) as -> by (eapply lookup_weaken in E2; [|done]; congruence).
          destruct (Hcl2 k r c' E2 Hk1 Hin HT) as [r' Hr'].
          exists r'. by eapply lookup_weaken.
        * by eapply Hcl3. }
  cbn [Game._load_rule]. rewrite HD.
  destruct (T !! tag) as [r|] eqn:Et; cbn [fmap option_fmap option_map].
  2:{ exists R, (ws ++ [Game.NoSuchRule tag]). split_and!; [done..| |].
      - by intros [? ?].
      - intros k r c Hk Hk'. congruence. }
  erewrite bind_Ok by reflexivity.
  change (Game.rules (loaded g0 R ws)) with R.
  destruct (decide (is_Some (R !! tag))) as [Hin|Hnew].
  { exists R, (ws ++ [Game.Repetition tag]). split_and!; [done..|].
    intros k r' c Hk Hk'. congruence. }
  apply eq_None_not_Some in Hnew.
  rewrite Rule_init_export.
  pose proof (rules_keyed T Hok tag r Et) as Htagr.
  erewrite (bind_Ok _ _ _ (loaded g0 R ws) true).
  2:{ destruct (decide (Rule.tag r ≠ "root")) as [Hroot|Hroot]; [|done].
      rewrite Htagr in Hroot.
      destruct (rules_parent T Hok tag r Et Hroot) as (p & pr & Hp & HTp & Hchild).
      destruct Htag as [->|(p0 & pr0 & Hp0 & Hchild0)]; [done|].
      assert (T !! p0 = Some pr0) as HTp0 by (by eapply lookup_weaken).
      assert (p0 = p) as ->
        by (eapply (rules_one_parent T Hok tag p0 p pr0 pr); [by eexists|done..]).
      unfold Rule.parent. rewrite Hp. cbn [mbind option_bind].
      rewrite Hp0, Htagr. by rewrite decide_True. }
  cbv beta iota.
  erewrite bind_Ok by reflexivity.
  change (Game.with_rules (loaded g0 R ws) (<[tag:=r]> (Game.rules (loaded g0 R ws))))
    with (loaded g0 (<[tag:=r]> R) ws).
  assert (<[tag:=r]> R ⊆ T) as HR1 by (by apply insert_subseteq_l).
  destruct (Hinner (Rule.children r) (<[tag:=r]> R) ws HR1)
    as (R' & ws' & Hrun & H1 & H'T & Hcs & Hcl).
  { rewrite map_size_insert_None by done. lia. }
  { intros c Hc. exists tag, r. split; [apply lookup_insert_eq|done]. }
  exists R', ws'. split_and!.
  - done.
  - etrans; [|done]. by apply insert_subseteq.
  - done.
  - intros _. exists r. eapply lookup_weaken; [|done]. apply lookup_insert_eq.
  - intros k r' c Hk Hk' Hin HT.
    destruct (decide (k = tag)) as [->|Hne].
    + assert (r' = r) as ->.
      { eapply lookup_weaken in Hk; [|done]. congruence. }
      by apply Hcs.
    + eapply Hcl; [done| |done..]. by rewrite lookup_insert_ne.
Qed.

(** Loading from the root into an empty table rebuilds [T]. *)
Lemma load_rule_rebuilds (fuel : nat) (g0 : Game.t) (ws : list Game.warning) :
  (size T < fuel)%nat →
  ∃ ws', Game._load_rule fuel D "root" (loaded g0 ∅ ws) = (Ok (), loaded g0 T ws').
Proof using HD Hok.
  intros Hfuel.
  destruct (load_rule_complete fuel g0 ∅ ws "root")
    as (R' & ws' & Hrun & _ & HR'T & Hroot & Hcl).
  { apply map_empty_subseteq. }
  { rewrite map_size_empty. lia. }
  { by left. }
  exists ws'. rewrite Hrun. do 2 f_equal.
  assert (∀ k, reachable T k → is_Some (T !! k) → is_Some (R' !! k)) as Hreach.
  { intros k Hk. induction Hk as [|p pr c Hp IH HTp Hc]; [done|].
    intros HTc. destruct IH as [pr' Hpr']; [by eexists|].
    assert (pr' = pr) as -> by (eapply lookup_weaken in Hpr'; [|done]; congruence).
    eapply Hcl; [done|apply lookup_empty|done..]. }
  apply map_eq. intros k.
  destruct (T !! k) as [r|] eqn:Ek.
  - destruct (Hreach k) as [r' Hr']; [apply (rules_reachable T Hok); by eexists|by eexists|].
    rewrite Hr'. eapply lookup_weaken in Hr'; [|done]. congruence.
  - destruct (R' !! k) as [r'|] eqn:Ek'; [|done].
    eapply lookup_weaken in Ek'; [|done]. congruence.
Qed.
End loader.

Lemma exported_rules_lookup (T : gmap string Rule.t) (k : string) :
  dict_get (sort_dict (map_to_list (Rule.export <$> T))) k = Rule.export <$> T !! k.
Proof.
  rewrite dict_get_sort_dict by apply NoDup_fst_map_to_list.
  by rewrite dict_get_map_to_list, lookup_fmap.
Qed.

Lemma exported_rules_length (T : gmap string Rule.t) :
  length (sort_dict (map_to_list (Rule.export <$> T))) = size T.
Proof.
  unfold sort_dict. rewrite merge_sort_Permutation.
  by rewrite length_map_to_list, map_size_fmap.
Qed.

(** [add_quantity] leaves the aliases in the order given. *)
Example add_quantity_keeps_alias_order :
  ∃ q s', QuantityManager.add_quantity 7 "points" ["pts"; "p"]
            (QuantityManager.mk (Owned 7) [] []) = (Ok q, s') ∧
          Quantity.aliases q = ["pts"; "p"].
Proof. eexists _, _. split; vm_compute; reflexivity. Qed.

Lemma rules2_lookup (k : string) (r : Rule.t) :
  rules2 !! k = Some r →
  (k = "root" ∧ r = Rule.mk "root" None None None ["scoring"]) ∨
  (k = "scoring" ∧ r = Rule.mk "scoring" (Some "Scoring") (Some "text") (Some "root") []).
Proof.
  unfold rules2. intros [[<- <-]|[_ [<- <-]%lookup_singleton_Some]]%lookup_insert_Some.
  - by left.
  - by right.
Qed.

Lemma rules2_ok : rules_ok rules2.
Proof.
  split.
  - intros k r [[-> ->]|[-> ->]]%rules2_lookup; reflexivity.
  - intros k r [[-> ->]|[-> ->]]%rules2_lookup Hk; [done|].
    exists "root", (Rule.mk "root" None None None ["scoring"]).
    split; [done|]. split; [done|]. left.
  - intros k p p' pr pr' _ [[-> ->]|[-> ->]]%rules2_lookup
      [[-> ->]|[-> ->]]%rules2_lookup; simpl; try done.
    + by intros _ ?%elem_of_nil.
    + by intros ?%elem_of_nil.
  - intros k [r [[-> ->]|[-> ->]]%rules2_lookup].
    + constructor.
    + apply (reach_child rules2 "root" (Rule.mk "root" None None None ["scoring"]));
        [constructor|done|left].
Qed.


(** * Further properties *)

(** ** Quantity values *)

(** X1. [Quantity.set] then [Quantity.get]: the player reads a number equal
    to the one written; every other player reads what it read before; the
    default does not move; and of two writes for one player the last one
    alone counts. *)
Theorem set_read_your_write (q : Quantity.t) (P P' : Z) (v v' : num) :
  py_eq (Quantity.get (Quantity.set q P v) P) v = true ∧
  (P' ≠ P → Quantity.get (Quantity.set q P v) P' = Quantity.get q P') ∧
  Quantity.players (Quantity.set (Quantity.set q P v) P v')
    = Quantity.players (Quantity.set q P v') ∧
  Quantity.players (Quantity.set (Quantity.set q P v) P v)
    = Quantity.players (Quantity.set q P v).
Proof.
  assert (∀ w, Quantity.players (Quantity.set (Quantity.set q P v) P w)
               = Quantity.players (Quantity.set q P w)) as Hlast.
  { intros w. rewrite !(set_players _ P w), set_default_value, set_players.
    destruct (py_eq (coerce w) _), (py_eq (coerce v) _);
      by rewrite ?delete_delete_eq, ?delete_insert_eq, ?insert_delete_eq, ?insert_insert_eq. }
  split_and!; [| |apply Hlast..].
  - unfold Quantity.get. rewrite set_default_value, set_players.
    destruct (py_eq (coerce v) (Quantity.default_value q)) eqn:E.
    + rewrite lookup_delete_eq. simpl.
      rewrite py_eq_sym in E. apply (py_eq_trans _ _ _ E), coerce_value.
    + rewrite lookup_insert_eq. apply coerce_value.
  - intros Hne. unfold Quantity.get. rewrite set_default_value, set_players.
    destruct (py_eq _ _); by rewrite ?lookup_delete_ne, ?lookup_insert_ne.
Qed.

Lemma merge_sort_sorted_strings (l : list string) :
  Sorted String.le l → merge_sort String.le l = l.
Proof.
  intros Hl. apply (Sorted_unique String.le); [apply Sorted_merge_sort; apply _|done|].
  apply merge_sort_Permutation.
Qed.

Lemma Quantity_export_init_export (q : Quantity.t) :
  Quantity.export (Quantity.init (Quantity.export q)) = Quantity.export q.
Proof.
  rewrite Quantity_init_export. unfold Quantity.export. simpl.
  by rewrite merge_sort_sorted_strings by (apply Sorted_merge_sort; apply _).
Qed.

(** X2. What [Quantity.export] writes is stable: the quantity built from an
    exported mapping exports to that same mapping. The quantity itself
    comes back as it was exactly when its aliases were in sorted order. *)
Theorem quantity_export_stable (q : Quantity.t) :
  Quantity.export (Quantity.init (Quantity.export q)) = Quantity.export q ∧
  (Quantity.init (Quantity.export q) = q ↔ Sorted String.le (Quantity.aliases q)).
Proof.
  split; [apply Quantity_export_init_export|].
  rewrite Quantity_init_export. split.
  - intros Hq. apply (f_equal Quantity.aliases) in Hq. simpl in Hq.
    rewrite <- Hq. apply Sorted_merge_sort. apply _.
  - intros Hs. destruct q as [n al ps d]. unfold Quantity.with_aliases. simpl in *.
    by rewrite merge_sort_sorted_strings.
Qed.

(** ** Lookup in the registry *)

Lemma find_app {A} (f : A → bool) (l1 l2 : list A) :
  List.find f (l1 ++ l2) = if List.find f l1 is Some x then Some x else List.find f l2.
Proof.
  induction l1 as [|x l1 IH]; simpl; [done|]. by destruct (f x).
Qed.

Lemma find_alias_Some (qs : list Quantity.t) (x : string) (q : Quantity.t) :
  List.find (λ q, bool_decide (x ∈ Quantity.aliases q)) qs = Some q →
  q ∈ qs ∧ x ∈ Quantity.aliases q.
Proof.
  intros [Hin Hx%bool_decide_eq_true]%List.find_some.
  split; [by apply list_elem_of_In|done].
Qed.

Lemma find_alias_None (qs : list Quantity.t) (x : string) :
  List.find (λ q, bool_decide (x ∈ Quantity.aliases q)) qs = None ↔
  ∀ q, q ∈ qs → x ∉ Quantity.aliases q.
Proof.
  split.
  - intros Hnone q Hq%list_elem_of_In.
    pose proof (List.find_none _ _ Hnone q Hq) as H. simpl in H.
    by apply bool_decide_eq_false in H.
  - intros Hall. destruct (List.find _ qs) as [q|] eqn:E; [|done].
    apply find_alias_Some in E as [Hin Hx]. by destruct (Hall q Hin).
Qed.

Lemma get_quantity_lower (qs : list (string * Quantity.t)) (x : string) :
  QuantityManager.get_quantity qs x = QuantityManager.get_quantity qs (lower x).
Proof. unfold QuantityManager.get_quantity. by rewrite lower_idemp. Qed.

Lemma get_quantity_None_iff (qs : list (string * Quantity.t)) (x : string) :
  QuantityManager.get_quantity qs x = None ↔
  (lower x ∉ qs.*1) ∧ ∀ q, q ∈ qs.*2 → lower x ∉ Quantity.aliases q.
Proof.
  unfold QuantityManager.get_quantity.
  destruct (dict_get qs (lower x)) as [q0|] eqn:E.
  - split; [done|]. intros [Hk _]. apply dict_get_None in Hk. congruence.
  - rewrite find_alias_None. apply dict_get_None in E.
    split; [by intros ?|by intros [_ ?]].
Qed.

(** X3. [get_quantity] ignores the case of the name asked for. It answers
    with the quantity held under the lower-cased name when there is one,
    whatever the aliases say; otherwise with a quantity of the registry that
    has the lower-cased name among its aliases; and with nothing exactly
    when the lower-cased name is neither a key nor an alias. *)
Theorem get_quantity_lookup (qs : list (string * Quantity.t)) (x : string) :
  QuantityManager.get_quantity qs x = QuantityManager.get_quantity qs (lower x) ∧
  (∀ q, dict_get qs (lower x) = Some q → QuantityManager.get_quantity qs x = Some q) ∧
  (∀ q, QuantityManager.get_quantity qs x = Some q →
     ((lower x, q) ∈ qs) ∨
     (dict_get qs (lower x) = None ∧ q ∈ qs.*2 ∧ lower x ∈ Quantity.aliases q)) ∧
  (QuantityManager.get_quantity qs x = None ↔
     (lower x ∉ qs.*1) ∧ ∀ q, q ∈ qs.*2 → lower x ∉ Quantity.aliases q).
Proof.
  split; [apply get_quantity_lower|]. split_and!; [..|apply get_quantity_None_iff].
  - unfold QuantityManager.get_quantity. by intros q ->.
  - unfold QuantityManager.get_quantity.
    intros q. destruct (dict_get qs (lower x)) as [q0|] eqn:E.
    + intros [= <-]. left. by apply dict_get_Some_elem.
    + intros [? ?]%find_alias_Some. by right.
Qed.

(** ** The mutators of the registry *)


Lemma check_stamp_other (me : Z) (st : stamp) :
  st ≠ Owned me → check_stamp me st = Raise (lock_error st).
Proof.
  destruct st as [| |thread]; simpl; [done..|].
  intros H. rewrite decide_False; [done|]. congruence.
Qed.

Lemma manager_assert_locked_other (me : Z) (s : QuantityManager.t) :
  QuantityManager.owned_thread_id s ≠ Owned me →
  QuantityManager.assert_locked me s
    = (Raise (lock_error (QuantityManager.owned_thread_id s)), s).
Proof. intros H. unfold QuantityManager.assert_locked. by rewrite check_stamp_other. Qed.

Lemma manager_assert_locked_owned (me : Z) (s : QuantityManager.t) :
  QuantityManager.owned_thread_id s = Owned me →
  QuantityManager.assert_locked me s = (Ok (), s).
Proof.
  intros H. unfold QuantityManager.assert_locked. by rewrite (check_stamp_owned _ _ H).
Qed.

(** X4. No mutator of the registry acts without the lock: when the stamp is
    not the caller's, [add_quantity], [rename_quantity], [remove_quantity],
    [set_quantity_aliases] and [set_quantity_default] all end in the
    exception of [assert_locked], and registry and store are as before. *)
Theorem registry_mutators_need_lock (me : Z) (s : QuantityManager.t) :
  QuantityManager.owned_thread_id s ≠ Owned me →
  let e := lock_error (QuantityManager.owned_thread_id s) in
  (∀ name aliases, QuantityManager.add_quantity me name aliases s = (Raise e, s)) ∧
  (∀ q name, QuantityManager.rename_quantity me q name s = (Raise e, s)) ∧
  (∀ q, QuantityManager.remove_quantity me q s = (Raise e, s)) ∧
  (∀ q aliases, QuantityManager.set_quantity_aliases me q aliases s = (Raise e, s)) ∧
  (∀ q d, QuantityManager.set_quantity_default me q d s = (Raise e, s)).
Proof.
  intros H. cbv zeta. split_and!; intros;
    by apply bind_Raise, manager_assert_locked_other.
Qed.

Lemma registry_mutators_need_lock_witness :
  QuantityManager.add_quantity 8 "score" [] registry1 = (Raise RuntimeError, registry1) ∧
  QuantityManager.remove_quantity 8 "points" registry1 = (Raise RuntimeError, registry1).
Proof.
  destruct (registry_mutators_need_lock 8 registry1) as (Hadd & _ & Hrem & _).
  - discriminate.
  - split; [apply Hadd|apply Hrem].
Defined.

Lemma check_accepted (s : QuantityManager.t) (ignore : option Quantity.t) (x : string) :
  name_accepted (QuantityManager.quantities s) ignore x →
  QuantityManager._check_quantity_name x ignore s = (Ok (), s).
Proof.
  intros (Hlen & [m Hm] & Hfree). unfold QuantityManager._check_quantity_name.
  rewrite decide_False by lia. rewrite Hm.
  destruct Hfree as [(q & -> & Hq)|Hfree].
  - by rewrite bool_decide_eq_true_2.
  - destruct (negb _); [|done]. run_step. by rewrite Hfree.
Qed.

Lemma check_refused (s : QuantityManager.t) (ignore : option Quantity.t) (x : string) :
  ¬ name_accepted (QuantityManager.quantities s) ignore x →
  ∃ why, QuantityManager._check_quantity_name x ignore s = (Raise (ValueError why), s).
Proof.
  intros Hno.
  destruct (check_quantity_name_pure x ignore s) as [Hok|Hraise]; [|done].
  exfalso. apply Hno. revert Hok. unfold QuantityManager._check_quantity_name.
  destruct (decide _) as [|Hlen]; [done|].
  destruct (re_match_name x) as [m|] eqn:Hm; [|done].
  intros Hok. split; [lia|]. split; [by eexists|].
  destruct ignore as [q|]; cbn in Hok.
  - destruct (decide (x ∈ Quantity.aliases q)) as [Hq|Hq]; [left; by exists q|].
    right. rewrite bool_decide_eq_false_2 in Hok by done. cbn in Hok.
    revert Hok. run_step. by destruct (QuantityManager.get_quantity _ x).
  - right. revert Hok. run_step. by destruct (QuantityManager.get_quantity _ x).
Qed.

Lemma for_each_check_accepted (names : list string) ignore (s : QuantityManager.t) :
  Forall (name_accepted (QuantityManager.quantities s) ignore) names →
  for_each names (λ name, QuantityManager._check_quantity_name name ignore) s = (Ok (), s).
Proof.
  induction 1 as [|x names Hx _ IH]; [done|].
  cbn [for_each]. by erewrite bind_Ok by (by apply check_accepted).
Qed.

Lemma for_each_check_refused (names : list string) ignore (s : QuantityManager.t) :
  ¬ Forall (name_accepted (QuantityManager.quantities s) ignore) names →
  ∃ why, for_each names (λ name, QuantityManager._check_quantity_name name ignore) s
         = (Raise (ValueError why), s).
Proof.
  induction names as [|x names IH]; intros Hno; [by destruct Hno|].
  cbn [for_each].
  destruct (decide (name_accepted (QuantityManager.quantities s) ignore x)) as [Hx|Hx].
  - erewrite bind_Ok by (by apply check_accepted). apply IH.
    intros Hall. apply Hno. by constructor.
  - destruct (check_refused s ignore x Hx) as [why Hwhy].
    exists why. by apply bind_Raise.
Qed.

Lemma dict_set_fresh {V} (d : list (string * V)) (k : string) (v : V) :
  dict_get d k = None → dict_set d k v = d ++ [(k, v)].
Proof.
  induction d as [|[k0 v0] d IH]; simpl; [done|].
  destruct (decide (k0 = k)); [done|]. intros H. by rewrite IH.
Qed.

Lemma dict_get_app {V} (d1 d2 : list (string * V)) (k : string) :
  dict_get (d1 ++ d2) k = if dict_get d1 k is Some v then Some v else dict_get d2 k.
Proof.
  induction d1 as [|[k0 v0] d1 IH]; simpl; [done|]. by destruct (decide (k0 = k)).
Qed.

Lemma get_quantity_None_key (qs : list (string * Quantity.t)) (x : string) :
  QuantityManager.get_quantity qs x = None → dict_get qs (lower x) = None.
Proof.
  unfold QuantityManager.get_quantity. by destruct (dict_get qs (lower x)).
Qed.

(** X5. When the lower-cased name and aliases pass the checks,
    [add_quantity] under the lock returns a quantity with that name, those
    aliases, no per-player value and the default 0, puts it last in the
    registry and writes the sorted export to the store. [get_quantity] then
    finds it under its name and under each alias, whatever the case, and
    every lookup that found a quantity before finds the same one. *)
Theorem add_quantity_registers
    (me : Z) (s : QuantityManager.t) (name : string) (aliases : list string) :
  QuantityManager.owned_thread_id s = Owned me →
  Forall (name_accepted (QuantityManager.quantities s) None)
         (lower name :: (lower <$> aliases)) →
  let q := Quantity.mk (lower name) (lower <$> aliases) ∅ (Int 0) in
  let qs' := QuantityManager.quantities s ++ [(lower name, q)] in
  QuantityManager.add_quantity me name aliases s
    = (Ok q, QuantityManager.mk (QuantityManager.owned_thread_id s) qs'
               (sort_dict (prod_map id Quantity.export <$> qs'))) ∧
  (∀ x, x ∈ name :: aliases → QuantityManager.get_quantity qs' x = Some q) ∧
  (∀ y q0, QuantityManager.get_quantity (QuantityManager.quantities s) y = Some q0 →
     QuantityManager.get_quantity qs' y = Some q0).
Proof.
  intros Hown Hall. cbv zeta.
  set (q := Quantity.mk (lower name) (lower <$> aliases) ∅ (Int 0)).
  assert (∀ x, x ∈ lower name :: (lower <$> aliases) →
            QuantityManager.get_quantity (QuantityManager.quantities s) x = None) as Hfree.
  { intros x Hx. rewrite list.Forall_forall in Hall.
    destruct (Hall x Hx) as (_ & _ & [(? & [=] & _)|H]). done. }
  assert (dict_get (QuantityManager.quantities s) (lower name) = None) as Hkey.
  { rewrite <- (lower_idemp name). apply get_quantity_None_key, Hfree. left. }
  split_and!.
  - unfold QuantityManager.add_quantity.
    erewrite bind_Ok by (by apply manager_assert_locked_owned).
    cbv zeta. erewrite bind_Ok by (by apply for_each_check_accepted).
    run_step. cbn [QuantityManager.quantities QuantityManager.with_quantities].
    by rewrite dict_set_fresh.
  - intros x Hx. unfold QuantityManager.get_quantity.
    rewrite dict_get_app.
    assert (lower x ∈ lower name :: (lower <$> aliases)) as Hlx.
    { apply elem_of_cons in Hx as [->|Hx]; [left|right].
      apply list_elem_of_fmap. by exists x. }
    pose proof (Hfree _ Hlx) as Hnone.
    apply get_quantity_None_iff in Hnone as [Hk Hal].
    rewrite lower_idemp in Hk, Hal.
    rewrite (proj2 (dict_get_None _ _) Hk). cbn [dict_get].
    destruct (decide (lower name = lower x)) as [|Hne]; [done|].
    rewrite fmap_app, find_app, (proj2 (find_alias_None _ _) Hal).
    cbn. rewrite bool_decide_eq_true_2; [done|].
    apply elem_of_cons in Hlx as [?|?]; [congruence|done].
  - intros y q0 Hy.
    assert (lower y ≠ lower name) as Hne.
    { intros Heq. rewrite get_quantity_lower, Heq in Hy.
      rewrite Hfree in Hy by left. done. }
    revert Hy. unfold QuantityManager.get_quantity. rewrite dict_get_app.
    destruct (dict_get (QuantityManager.quantities s) (lower y)) as [q1|]; [done|].
    cbn [dict_get]. rewrite decide_False by done.
    intros Hfind. by rewrite fmap_app, find_app, Hfind.
Qed.

Lemma add_quantity_registers_witness :
  QuantityManager.get_quantity
    (QuantityManager.quantities registry1
       ++ [("score", Quantity.mk "score" ["sc"] ∅ (Int 0))]) "SC"
    = Some (Quantity.mk "score" ["sc"] ∅ (Int 0)).
Proof.
  destruct (add_quantity_registers 7 registry1 "Score" ["SC"]) as (_ & Hfind & _).
  - reflexivity.
  - apply (bool_decide_unpack _). vm_compute. exact I.
  - apply Hfind. right. left.
Defined.

Lemma NoDup_fst_elem_eq {V} (d : list (string * V)) (x1 x2 : string * V) :
  NoDup d.*1 → x1 ∈ d → x2 ∈ d → x1.1 = x2.1 → x1 = x2.
Proof.
  destruct x1 as [k v1], x2 as [k' v2]. simpl. intros Hnd H1 H2 <-.
  apply (dict_get_elem_Some _ _ _ Hnd) in H1, H2. congruence.
Qed.

Lemma sort_dict_fixed {V} (d : list (string * V)) :
  Sorted (key_le String.le) d → NoDup d.*1 → sort_dict d = d.
Proof.
  intros Hs Hnd.
  apply (Sorted_unique_strong (key_le String.le)); [|apply sort_dict_sorted|done|apply sort_dict_perm].
  intros x1 x2 H1 H2 H12 H21. rewrite sort_dict_perm in H1.
  apply (NoDup_fst_elem_eq d); [done..|].
  unfold key_le in *. by apply (anti_symm String.le).
Qed.

Lemma sort_dict_keys_NoDup {V} (d : list (string * V)) :
  NoDup d.*1 → NoDup (sort_dict d).*1.
Proof. intros H. by rewrite sort_dict_perm. Qed.

Lemma sort_dict_keys_sorted {V} (d : list (string * V)) :
  Sorted String.le (sort_dict d).*1.
Proof.
  apply (Sorted_fmap fst (key_le String.le) String.le); [done|apply sort_dict_sorted].
Qed.

(** Exporting what was loaded from an export gives that export again. *)
Lemma export_init_sorted_export (qs : list (string * Quantity.t)) :
  NoDup qs.*1 →
  sort_dict (prod_map id Quantity.export <$>
               (prod_map id Quantity.init <$>
                  sort_dict (prod_map id Quantity.export <$> qs)))
    = sort_dict (prod_map id Quantity.export <$> qs).
Proof.
  intros Hnd.
  set (D := sort_dict (prod_map id Quantity.export <$> qs)).
  assert (prod_map id Quantity.export <$> (prod_map id Quantity.init <$> D) = D) as ->.
  { rewrite <- list_fmap_compose. rewrite <- (list_fmap_id D) at 2.
    apply list_fmap_ext. intros i [k p] Hi.
    apply list_elem_of_lookup_2 in Hi. unfold D in Hi. rewrite sort_dict_perm in Hi.
    apply list_elem_of_fmap in Hi as ([k' q] & [= -> ->] & _).
    cbn. by rewrite Quantity_export_init_export. }
  apply sort_dict_fixed; [apply sort_dict_sorted|].
  apply sort_dict_keys_NoDup. by rewrite fmap_fst_prod_map.
Qed.

(** X6. [save] then [load] then [save] on a registry: the registry that
    [load] builds holds, under each key, the quantity that was saved, its
    aliases sorted, and its keys are in sorted order; the second [save]
    writes to the store exactly what the first one wrote. *)
Theorem save_load_save (s : QuantityManager.t) :
  NoDup (QuantityManager.quantities s).*1 →
  ∃ s1 s2 s3,
    QuantityManager.save s = (Ok (), s1) ∧
    QuantityManager.load s1 = (Ok (), s2) ∧
    QuantityManager.save s2 = (Ok (), s3) ∧
    (∀ k, dict_get (QuantityManager.quantities s2) k
          = sorted_aliases <$> dict_get (QuantityManager.quantities s) k) ∧
    Sorted String.le (QuantityManager.quantities s2).*1 ∧
    QuantityManager.db s3 = QuantityManager.db s1.
Proof.
  intros Hnd. eexists _, _, _. split_and!; [reflexivity..| | |].
  - intros k. cbn. by apply reloaded_quantities.
  - cbn. rewrite fmap_fst_prod_map. apply sort_dict_keys_sorted.
  - cbn. by apply export_init_sorted_export.
Qed.

Lemma save_load_save_witness :
  ∃ s1 s2 s3,
    QuantityManager.save registry1 = (Ok (), s1) ∧
    QuantityManager.load s1 = (Ok (), s2) ∧
    QuantityManager.save s2 = (Ok (), s3) ∧
    QuantityManager.db s3 = QuantityManager.db s1.
Proof.
  destruct (save_load_save registry1) as (s1 & s2 & s3 & H1 & H2 & H3 & _ & _ & Hdb).
  - repeat constructor. by intros ?%elem_of_nil.
  - exists s1, s2, s3. by split_and!.
Defined.

Lemma dict_get_del_ne {V} (d : list (string * V)) (k k' : string) :
  k' ≠ k → dict_get (dict_del d k) k' = dict_get d k'.
Proof.
  intros Hne. induction d as [|[k0 v0] d IH]; simpl; [done|].
  destruct (decide (k0 = k)) as [->|Hk0]; simpl.
  - by rewrite decide_False.
  - by rewrite IH.
Qed.

Lemma dict_get_del_eq {V} (d : list (string * V)) (k : string) :
  NoDup d.*1 → dict_get (dict_del d k) k = None.
Proof.
  induction d as [|[k0 v0] d IH]; simpl; [done|].
  intros [Hk0 Hnd]%list.NoDup_cons.
  destruct (decide (k0 = k)) as [->|Hk]; simpl.
  - by apply dict_get_None.
  - rewrite decide_False by done. by apply IH.
Qed.

Lemma dict_del_alter {V} (f : V → V) (d : list (string * V)) (k : string) :
  dict_del (dict_alter f d k) k = dict_del d k.
Proof.
  induction d as [|[k0 v0] d IH]; simpl; [done|].
  destruct (decide (k0 = k)) as [->|Hk]; simpl.
  - by rewrite decide_True.
  - by rewrite decide_False, IH.
Qed.

Lemma dict_alter_absent {V} (f : V → V) (d : list (string * V)) (k : string) :
  dict_get d k = None → dict_alter f d k = d.
Proof.
  induction d as [|[k0 v0] d IH]; simpl; [done|].
  destruct (decide (k0 = k)); [done|]. intros H. by rewrite IH.
Qed.

Lemma dict_get_set {V} (d : list (string * V)) (k k' : string) (v : V) :
  dict_get (dict_set d k v) k' = if decide (k' = k) then Some v else dict_get d k'.
Proof.
  induction d as [|[k0 v0] d IH]; simpl.
  - destruct (decide (k = k')) as [->|]; [by rewrite decide_True|by rewrite decide_False].
  - destruct (decide (k0 = k)) as [->|Hk0]; simpl.
    + destruct (decide (k = k')) as [->|]; [by rewrite decide_True|by rewrite decide_False].
    + destruct (decide (k0 = k')) as [->|]; [by rewrite decide_False|done].
Qed.

Lemma dict_del_filter {V} (d : list (string * V)) (k : string) :
  NoDup d.*1 → dict_del d k = filter (λ kv, kv.1 ≠ k) d.
Proof.
  induction d as [|[k0 v0] d IH]; [done|].
  intros [Hk0 Hnd]%list.NoDup_cons. cbn [dict_del]. rewrite filter_cons. cbn [fst].
  destruct (decide (k0 = k)) as [->|Hne].
  - rewrite decide_False by (by intros ?).
    clear IH Hnd. induction d as [|[k1 v1] d IH]; [done|].
    rewrite filter_cons. cbn [fst] in *.
    apply not_elem_of_cons in Hk0 as [Hk1 Hd].
    rewrite decide_True by done. f_equal. by apply IH.
  - rewrite decide_True by done. f_equal. by apply IH.
Qed.

Lemma dict_alter_id_eq {V} (d : list (string * V)) (k : string) :
  dict_alter id d k = d.
Proof.
  induction d as [|[k0 v0] d IH]; simpl; [done|].
  destruct (decide (k0 = k)); [done|]. by rewrite IH.
Qed.

Lemma manager_the_quantity (s : QuantityManager.t) (key : string) (q : Quantity.t) :
  dict_get (QuantityManager.quantities s) key = Some q →
  QuantityManager.the_quantity key s = (Ok q, s).
Proof. intros H. unfold QuantityManager.the_quantity. run_step. by rewrite H. Qed.

(** X7. [remove_quantity] under the lock, on a quantity that the registry
    (a dict, its keys distinct) holds under its name: the entry is gone, the
    other entries are as they were and in the same order, and the store
    holds the sorted export of what is left. *)
Theorem remove_quantity_removes
    (me : Z) (s : QuantityManager.t) (key : string) (q : Quantity.t) :
  QuantityManager.owned_thread_id s = Owned me →
  NoDup (QuantityManager.quantities s).*1 →
  dict_get (QuantityManager.quantities s) key = Some q →
  Quantity.name q = key →
  let qs' := dict_del (QuantityManager.quantities s) key in
  QuantityManager.remove_quantity me key s
    = (Ok (), QuantityManager.mk (QuantityManager.owned_thread_id s) qs'
                (sort_dict (prod_map id Quantity.export <$> qs'))) ∧
  qs' = filter (λ kq, kq.1 ≠ key) (QuantityManager.quantities s) ∧
  dict_get qs' key = None ∧
  (∀ k, k ≠ key → dict_get qs' k = dict_get (QuantityManager.quantities s) k).
Proof.
  intros Hown Hnd Hq Hname. cbv zeta. split_and!.
  - unfold QuantityManager.remove_quantity.
    erewrite bind_Ok by (by apply manager_assert_locked_owned).
    erewrite bind_Ok by (by apply manager_the_quantity).
    rewrite Hname. run_step. by rewrite Hq.
  - by apply dict_del_filter.
  - by apply dict_get_del_eq.
  - intros k Hk. by apply dict_get_del_ne.
Qed.

Lemma remove_quantity_removes_witness :
  QuantityManager.remove_quantity 7 "points" registry1
    = (Ok (), QuantityManager.mk (Owned 7) [] []).
Proof.
  apply (remove_quantity_removes 7 registry1 "points" points1).
  - reflexivity.
  - repeat constructor. by intros ?%elem_of_nil.
  - reflexivity.
  - reflexivity.
Defined.

(** X8. [set_quantity_aliases] under the lock is all or nothing. When every
    new alias passes the check, own aliases of the quantity being exempt
    from the in-use test, the quantity gets the new aliases in sorted order,
    as given (no lower-casing here), nothing else in the registry moves and
    the store is written. Otherwise the call ends in a [ValueError] and
    registry and store are as before. *)
Theorem set_quantity_aliases_all_or_nothing
    (me : Z) (s : QuantityManager.t) (key : string) (q : Quantity.t)
    (new_aliases : list string) :
  QuantityManager.owned_thread_id s = Owned me →
  dict_get (QuantityManager.quantities s) key = Some q →
  let qs' := dict_alter (λ q, Quantity.with_aliases q (merge_sort String.le new_aliases))
               (QuantityManager.quantities s) key in
  (Forall (name_accepted (QuantityManager.quantities s) (Some q)) new_aliases →
     QuantityManager.set_quantity_aliases me key new_aliases s
       = (Ok (), QuantityManager.mk (QuantityManager.owned_thread_id s) qs'
                   (sort_dict (prod_map id Quantity.export <$> qs'))) ∧
     dict_get qs' key
       = Some (Quantity.with_aliases q (merge_sort String.le new_aliases)) ∧
     ∀ k, k ≠ key → dict_get qs' k = dict_get (QuantityManager.quantities s) k) ∧
  (¬ Forall (name_accepted (QuantityManager.quantities s) (Some q)) new_aliases →
     ∃ why, QuantityManager.set_quantity_aliases me key new_aliases s
            = (Raise (ValueError why), s)).
Proof.
  intros Hown Hq. cbv zeta. split.
  - intros Hall. split_and!.
    + unfold QuantityManager.set_quantity_aliases.
      erewrite bind_Ok by (by apply manager_assert_locked_owned).
      erewrite bind_Ok by (by apply manager_the_quantity).
      erewrite bind_Ok by (by apply for_each_check_accepted).
      reflexivity.
    + by rewrite dict_get_alter, decide_True, Hq.
    + intros k Hk. by rewrite dict_get_alter, decide_False.
  - intros Hno. destruct (for_each_check_refused _ _ _ Hno) as [why Hwhy].
    exists why. unfold QuantityManager.set_quantity_aliases.
    erewrite bind_Ok by (by apply manager_assert_locked_owned).
    erewrite bind_Ok by (by apply manager_the_quantity).
    by apply bind_Raise.
Qed.

Lemma set_quantity_aliases_all_or_nothing_witness :
  (∃ s', QuantityManager.set_quantity_aliases 7 "points" ["pts"; "p"] registry1
         = (Ok (), s')) ∧
  (∃ why, QuantityManager.set_quantity_aliases 7 "points" ["points"] registry1
          = (Raise (ValueError why), registry1)).
Proof.
  destruct (set_quantity_aliases_all_or_nothing 7 registry1 "points" points1 ["pts"; "p"])
    as [Hok _]; [reflexivity..|].
  destruct (set_quantity_aliases_all_or_nothing 7 registry1 "points" points1 ["points"])
    as [_ Hno]; [reflexivity..|].
  split.
  - eexists. apply Hok. apply (bool_decide_unpack _). vm_compute. exact I.
  - apply Hno. apply (bool_decide_unpack _). vm_compute. exact I.
Defined.

Lemma list_remove_first_absent (x : string) (l : list string) :
  x ∉ l → list_remove_first x l = l.
Proof.
  induction l as [|y l IH]; [done|]. intros Hx. cbn [list_remove_first].
  rewrite decide_False by (intros ->; apply Hx; left).
  f_equal. apply IH. intros H. apply Hx. by right.
Qed.

Lemma list_remove_first_present (x : string) (l : list string) :
  x ∈ l → ∃ l1 l2, l = l1 ++ x :: l2 ∧ (x ∉ l1) ∧ list_remove_first x l = l1 ++ l2.
Proof.
  induction l as [|y l IH]; [by intros ?%elem_of_nil|].
  intros Hx. cbn [list_remove_first].
  destruct (decide (y = x)) as [->|Hne].
  - exists [], l. split_and!; [done|apply not_elem_of_nil|done].
  - apply elem_of_cons in Hx as [->|Hx]; [done|].
    destruct (IH Hx) as (l1 & l2 & -> & Hl1 & ->).
    exists (y :: l1), l2. split_and!; [done| |done].
    intros [->|?]%elem_of_cons; done.
Qed.

(** X9. [rename_quantity] under the lock, on a quantity that the registry
    (its keys distinct) holds under its name, is all or nothing too. When
    the lower-cased new name passes the check, the quantity leaves its old
    key and is held under the new name, with that name, every other entry
    being as before; the store is written. Otherwise the call ends in a
    [ValueError] and nothing has changed. The renamed quantity keeps its
    default and its per-player values; its aliases are the old ones when
    the new name was not among them, and otherwise the old ones with the
    first occurrence of the new name taken out, so that the new name is no
    longer an alias when the aliases were distinct. *)
Theorem rename_quantity_all_or_nothing
    (me : Z) (s : QuantityManager.t) (key : string) (q : Quantity.t) (new_name : string) :
  QuantityManager.owned_thread_id s = Owned me →
  NoDup (QuantityManager.quantities s).*1 →
  dict_get (QuantityManager.quantities s) key = Some q →
  Quantity.name q = key →
  let new := lower new_name in
  let renamed :=
    Quantity.with_name
      (if bool_decide (new ∈ Quantity.aliases q)
       then Quantity.with_aliases q (list_remove_first new (Quantity.aliases q))
       else q) new in
  let qs' := dict_set (dict_del (QuantityManager.quantities s) key) new renamed in
  (name_accepted (QuantityManager.quantities s) (Some q) new →
     QuantityManager.rename_quantity me key new_name s
       = (Ok (), QuantityManager.mk (QuantityManager.owned_thread_id s) qs'
                   (sort_dict (prod_map id Quantity.export <$> qs'))) ∧
     dict_get qs' new = Some renamed ∧
     (new ≠ key → dict_get qs' key = None) ∧
     ∀ k, k ≠ key → k ≠ new → dict_get qs' k = dict_get (QuantityManager.quantities s) k) ∧
  (¬ name_accepted (QuantityManager.quantities s) (Some q) new →
     ∃ why, QuantityManager.rename_quantity me key new_name s
            = (Raise (ValueError why), s)) ∧
  (Quantity.name renamed = new ∧
   Quantity.players renamed = Quantity.players q ∧
   Quantity.default_value renamed = Quantity.default_value q ∧
   (new ∉ Quantity.aliases q → Quantity.aliases renamed = Quantity.aliases q) ∧
   (new ∈ Quantity.aliases q →
      ∃ l1 l2, Quantity.aliases q = l1 ++ new :: l2 ∧ (new ∉ l1) ∧
               Quantity.aliases renamed = l1 ++ l2) ∧
   (new ∈ Quantity.aliases q → NoDup (Quantity.aliases q) →
      (new ∉ Quantity.aliases renamed) ∧
      ∀ a, a ≠ new → (a ∈ Quantity.aliases renamed ↔ a ∈ Quantity.aliases q))).
Proof.
  intros Hown Hnd Hq Hname. cbv zeta. split; [|split].
  - intros Hacc. split_and!.
    + unfold QuantityManager.rename_quantity.
      erewrite bind_Ok by (by apply manager_assert_locked_owned).
      erewrite bind_Ok by (by apply manager_the_quantity).
      cbv zeta. erewrite bind_Ok by (by apply check_accepted).
      rewrite Hname.
      set (f := λ q0 : Quantity.t, Quantity.with_aliases q0
                  (list_remove_first (lower new_name) (Quantity.aliases q0))).
      assert (∀ (s0 : QuantityManager.t) g,
        QuantityManager.quantities s0 = dict_alter g (QuantityManager.quantities s) key →
        QuantityManager.del_quantity key s0
          = (Ok (), QuantityManager.with_quantities s0
                      (dict_del (QuantityManager.quantities s) key))) as Hdel.
      { intros s0 g Hs0. unfold QuantityManager.del_quantity. run_step.
        rewrite Hs0, dict_get_alter, decide_True, Hq by done.
        cbn [fmap option_fmap option_map]. cbv beta.
        by rewrite Hs0, dict_del_alter. }
      destruct (bool_decide (lower new_name ∈ Quantity.aliases q)) eqn:Hal.
      * erewrite bind_Ok by reflexivity.
        erewrite bind_Ok by (by apply (Hdel _ f)).
        run_step. cbn [QuantityManager.quantities QuantityManager.with_quantities].
        by rewrite (dict_alter_absent _ (dict_del (QuantityManager.quantities s) key) key)
          by (by apply dict_get_del_eq).
      * erewrite bind_Ok by reflexivity.
        erewrite bind_Ok by (apply (Hdel _ id); symmetry;
          apply dict_alter_id_eq).
        run_step. cbn [QuantityManager.quantities QuantityManager.with_quantities].
        by rewrite (dict_alter_absent _ (dict_del (QuantityManager.quantities s) key) key)
          by (by apply dict_get_del_eq).
    + by rewrite dict_get_set, decide_True.
    + intros Hne. rewrite dict_get_set, decide_False by done. by apply dict_get_del_eq.
    + intros k Hk Hk'. rewrite dict_get_set, decide_False by done.
      by apply dict_get_del_ne.
  - intros Hno. destruct (check_refused s (Some q) (lower new_name) Hno) as [why Hwhy].
    exists why. unfold QuantityManager.rename_quantity.
    erewrite bind_Ok by (by apply manager_assert_locked_owned).
    erewrite bind_Ok by (by apply manager_the_quantity).
    by apply bind_Raise.
  - destruct (bool_decide (lower new_name ∈ Quantity.aliases q)) eqn:Hal.
    + apply bool_decide_eq_true in Hal.
      pose proof (list_remove_first_present _ _ Hal) as (l1 & l2 & Hsplit & Hl1 & Hrm).
      split_and!; [done..| | |].
      * done.
      * intros _. by exists l1, l2.
      * intros _ Hnodup. cbn. rewrite Hrm. rewrite Hsplit in Hnodup.
        apply list.NoDup_app in Hnodup as (_ & Hdisj & [Hl2 _]%list.NoDup_cons).
        split.
        -- intros [?|?]%elem_of_app; done.
        -- intros a Ha. rewrite Hsplit, !elem_of_app, elem_of_cons.
           split; [intros [?|?]; [by left|by right; right]|].
           intros [?|[?|?]]; [by left|done|by right].
    + apply bool_decide_eq_false in Hal. split_and!; [done..| |done|done].
      done.
Qed.

Lemma rename_quantity_all_or_nothing_witness :
  QuantityManager.rename_quantity 7 "points" "PTS" registry1
    = (Ok (), QuantityManager.mk (Owned 7)
                [("pts", Quantity.mk "pts" [] ∅ (Int 0))]
                [("pts", Quantity.export (Quantity.mk "pts" [] ∅ (Int 0)))]) ∧
  (∃ s', QuantityManager.rename_quantity 7 "points" "Score" registry1 = (Ok (), s')) ∧
  (∃ why, QuantityManager.rename_quantity 7 "points" "!" registry1
          = (Raise (ValueError why), registry1)).
Proof.
  destruct (rename_quantity_all_or_nothing 7 registry1 "points" points1 "PTS")
    as ((Halias & _) & _ & _); [reflexivity|repeat constructor; by intros ?%elem_of_nil|reflexivity..| |].
  { apply (bool_decide_unpack _). vm_compute. exact I. }
  destruct (rename_quantity_all_or_nothing 7 registry1 "points" points1 "Score")
    as (Hok & _ & _); [reflexivity|repeat constructor; by intros ?%elem_of_nil|reflexivity..|].
  destruct (rename_quantity_all_or_nothing 7 registry1 "points" points1 "!")
    as (_ & Hno & _); [reflexivity|repeat constructor; by intros ?%elem_of_nil|reflexivity..|].
  split_and!.
  - rewrite Halias. vm_compute. reflexivity.
  - eexists. apply Hok. apply (bool_decide_unpack _). vm_compute. exact I.
  - apply Hno. apply (bool_decide_unpack _). vm_compute. exact I.
Defined.

(** ** Proposal ids *)

Lemma has_proposal_range (g : Game.t) (n : Z) :
  Game.has_proposal g n = true ↔ 1 ≤ n ≤ Z.of_nat (length (Game.proposals g)).
Proof. unfold Game.has_proposal. apply bool_decide_eq_true. Qed.

Lemma check_proposal_invalid (g : Game.t) (n : Z) (rest : list Z) :
  ¬ (1 ≤ n ≤ Z.of_nat (length (Game.proposals g))) →
  Game._check_proposal (n :: rest) g = (Raise (ValueError (NoSuchProposal n)), g).
Proof.
  intros Hn. unfold Game._check_proposal. cbn [for_each]. run_game.
  by rewrite bool_decide_eq_false_2.
Qed.

Lemma check_proposal_cons (g : Game.t) (n : Z) (rest : list Z) :
  1 ≤ n ≤ Z.of_nat (length (Game.proposals g)) →
  Game._check_proposal (n :: rest) g = Game._check_proposal rest g.
Proof.
  intros Hn. unfold Game._check_proposal. cbn [for_each]. run_game.
  by rewrite bool_decide_eq_true_2.
Qed.

(** X10. [has_proposal] holds of exactly the ids from 1 to the number of
    proposals, and these are the ids for which [get_proposal] returns a
    proposal, the one at position [n - 1]. [_check_proposal] returns when
    all its ids are such; otherwise it raises a [ValueError] that carries
    the first id, in the order given, that is not, and the game is as it
    was. *)
Theorem check_proposal_first_invalid (g : Game.t) :
  (∀ n, Game.has_proposal g n = true ↔ 1 ≤ n ≤ Z.of_nat (length (Game.proposals g))) ∧
  (∀ n, Game.has_proposal g n = true ↔ is_Some (Game.get_proposal g n)) ∧
  (∀ n p, Game.get_proposal g n = Some p → Game.proposals g !! Z.to_nat (n - 1) = Some p) ∧
  (∀ ns, (∀ n, n ∈ ns → Game.has_proposal g n = true) →
     Game._check_proposal ns g = (Ok (), g)) ∧
  (∀ l1 n l2, (∀ x, x ∈ l1 → Game.has_proposal g x = true) →
     Game.has_proposal g n = false →
     Game._check_proposal (l1 ++ n :: l2) g
       = (Raise (ValueError (NoSuchProposal n)), g)).
Proof.
  split_and!.
  - apply has_proposal_range.
  - intros n. unfold Game.get_proposal.
    destruct (Game.has_proposal g n) eqn:E.
    + split; [|done]. intros _. apply has_proposal_range in E.
      apply lookup_lt_is_Some. lia.
    + split; [done|]. by intros [? ?].
  - intros n p. unfold Game.get_proposal. by destruct (Game.has_proposal g n).
  - intros ns. induction ns as [|n ns IH]; intros Hns; [done|].
    rewrite check_proposal_cons by (apply has_proposal_range, Hns; left).
    apply IH. intros x Hx. apply Hns. by right.
  - intros l1 n l2. induction l1 as [|x l1 IH]; intros Hl1 Hn.
    + apply check_proposal_invalid. rewrite <- has_proposal_range. congruence.
    + cbn [app]. rewrite check_proposal_cons by (apply has_proposal_range, Hl1; left).
      apply IH; [|done]. intros y Hy. apply Hl1. by right.
Qed.

Lemma for_each_check_invalid (l1 l2 : list Z) (n : Z) (g : Game.t) :
  (∀ x, x ∈ l1 → 1 ≤ x ≤ Z.of_nat (length (Game.proposals g))) →
  ¬ (1 ≤ n ≤ Z.of_nat (length (Game.proposals g))) →
  for_each (l1 ++ n :: l2) (λ n, Game._check_proposal [n]) g
    = (Raise (ValueError (NoSuchProposal n)), g).
Proof.
  induction l1 as [|x l1 IH]; intros Hl1 Hn; cbn [app for_each].
  - apply bind_Raise. by apply check_proposal_invalid.
  - erewrite bind_Ok by (apply check_proposal_valid, Hl1; left).
    apply IH; [|done]. intros y Hy. apply Hl1. by right.
Qed.

(** X11. [refresh_proposal] and [repost_proposal] validate every id before
    they touch a message: under the lock, when some id is out of range, the
    call ends in the [ValueError] of the first such id, in the order given,
    and the game, its messages and the store are as before, however many
    valid ids come first and however [fetch_message] answers for a message
    that is not there. *)
Theorem refresh_repost_fail_fast
    (how : Game.missing_message) (fuel : nat) (me : Z) (g : Game.t)
    (l1 l2 : list Z) (n : Z) :
  Game.owned_thread_id g = Owned me →
  (∀ x, x ∈ l1 → 1 ≤ x ≤ Z.of_nat (length (Game.proposals g))) →
  ¬ (1 ≤ n ≤ Z.of_nat (length (Game.proposals g))) →
  Game.refresh_proposal how (S fuel) me (l1 ++ n :: l2) g
    = (Raise (ValueError (NoSuchProposal n)), g) ∧
  Game.repost_proposal how fuel me (l1 ++ n :: l2) g
    = (Raise (ValueError (NoSuchProposal n)), g).
Proof.
  intros Hown Hl1 Hn. split.
  - cbn [Game.refresh_proposal].
    erewrite bind_Ok by (by apply assert_locked_owned).
    apply bind_Raise. by apply for_each_check_invalid.
  - unfold Game.repost_proposal, Game.repost.
    erewrite bind_Ok by (by apply assert_locked_owned).
    apply bind_Raise. by apply for_each_check_invalid.
Qed.

Lemma refresh_repost_fail_fast_witness :
  Game.refresh_proposal Game.RaisesNotFound 1 7 [1; 4; 2] game3
    = (Raise (ValueError (NoSuchProposal 4)), game3) ∧
  Game.repost_proposal Game.ReturnsNone 1 7 [1; 4; 2] game3
    = (Raise (ValueError (NoSuchProposal 4)), game3).
Proof.
  split; [apply (refresh_repost_fail_fast Game.RaisesNotFound 0 7 game3 [1] [2] 4)
         |apply (refresh_repost_fail_fast Game.ReturnsNone 1 7 game3 [1] [2] 4)].
  all: try reflexivity.
  all: try (intros x ->%list_elem_of_singleton; simpl; lia).
  all: simpl; lia.
Defined.


Lemma sorted_set_elem (ns : list Z) (x : Z) : x ∈ Game.sorted_set ns ↔ x ∈ ns.
Proof.
  unfold Game.sorted_set. by rewrite merge_sort_Permutation, elem_of_remove_dups.
Qed.

Lemma sorted_set_NoDup (ns : list Z) : NoDup (Game.sorted_set ns).
Proof.
  unfold Game.sorted_set. rewrite merge_sort_Permutation. apply NoDup_remove_dups.
Qed.

Lemma edits_length (g : Game.t) (l : list Z) :
  (∀ x, x ∈ l → is_Some (message_of g x)) → length (edits g l) = length l.
Proof.
  induction l as [|x l IH]; intros Hl; [done|].
  unfold edits in *. cbn [omap list_omap].
  destruct (Hl x) as [m ->]; [left|]. cbn. f_equal. apply IH.
  intros y Hy. apply Hl. by right.
Qed.

(** X12. When every id is valid and the message of each is in the channel,
    [refresh_proposal] under the lock ends normally and reposts nothing: it
    edits one message for each distinct id, in ascending order of the ids,
    and the proposals, the messages of the channel and the store are
    untouched. No message being missing, this holds however
    [fetch_message] answers for one that is. *)
Theorem refresh_proposal_all_present
    (how : Game.missing_message) (fuel : nat) (me : Z) (g : Game.t) (ns : list Z) :
  Game.owned_thread_id g = Owned me →
  (∀ x, x ∈ ns → 1 ≤ x ≤ Z.of_nat (length (Game.proposals g))) →
  (∀ x, x ∈ ns → is_Some (message_of g x)) →
  Game.refresh_proposal how (S fuel) me ns g
    = (Ok (), add_trace g (edits g (Game.sorted_set ns))) ∧
  length (edits g (Game.sorted_set ns)) = length (Game.sorted_set ns) ∧
  NoDup (Game.sorted_set ns) ∧ Sorted Z.le (Game.sorted_set ns) ∧
  (∀ x, x ∈ Game.sorted_set ns ↔ x ∈ ns).
Proof.
  intros Hown Hvalid Hpresent. split_and!.
  - cbn [Game.refresh_proposal].
    erewrite bind_Ok by (by apply assert_locked_owned).
    erewrite bind_Ok by (by apply for_each_check_valid).
    apply refresh_loop_all. intros x Hx. apply Hpresent. by apply (proj1 (sorted_set_elem ns x)).
  - apply edits_length. intros x Hx. apply Hpresent. by apply (proj1 (sorted_set_elem ns x)).
  - apply sorted_set_NoDup.
  - apply Sorted_merge_sort. apply _.
  - apply sorted_set_elem.
Qed.

Lemma refresh_proposal_all_present_witness :
  Game.refresh_proposal Game.RaisesNotFound 1 7 [3; 1; 3] game3
    = (Ok (), add_trace game3 [Game.Edited 1 51; Game.Edited 3 53]).
Proof.
  apply (refresh_proposal_all_present Game.RaisesNotFound 0 7 game3 [3; 1; 3]).
  - reflexivity.
  - intros x Hx. simpl.
    apply elem_of_cons in Hx as [->|Hx]; [lia|].
    apply elem_of_cons in Hx as [->|Hx]; [lia|].
    apply list_elem_of_singleton in Hx as ->. lia.
  - intros x Hx.
    apply elem_of_cons in Hx as [->|Hx]; [by eexists|].
    apply elem_of_cons in Hx as [->|Hx]; [by eexists|].
    apply list_elem_of_singleton in Hx as ->. by eexists.
Defined.

(** ** Reposting *)

Lemma foldr_min_elem (n0 : Z) (l : list Z) : foldr Z.min n0 l ∈ n0 :: l.
Proof.
  induction l as [|x l IH]; cbn [foldr]; [left|].
  destruct (Z.min_spec x (foldr Z.min n0 l)) as [[_ ->]|[_ ->]].
  - right. left.
  - apply elem_of_cons in IH as [->|IH]; [left|]. right. by right.
Qed.








Lemma send_unbound (g : Game.t) (n : Z) {B} (k : Z → M Game.t B) :
  Game.proposals_channel g = None → (Game.send n ≫= k) g = (Raise AttributeError, g).
Proof. intros H. apply bind_Raise. unfold Game.send. run_game. by rewrite H. Qed.

(** X14. What [repost_proposal] raises before it changes anything. Called
    under the lock with no id at all, it ends in the [ValueError] of [min]
    on an empty sequence. Called with valid ids in a game that has no
    proposals channel, [fetch_message] returning [None] for a message that
    is not there, it ends in an [AttributeError]. In both cases the game,
    the channel and the store are as before. *)
Theorem repost_proposal_refuses
    (how : Game.missing_message) (fuel : nat) (me : Z) (g : Game.t) :
  Game.owned_thread_id g = Owned me →
  Game.repost_proposal how fuel me [] g = (Raise (ValueError EmptyMin), g) ∧
  (Game.proposals_channel g = None →
   ∀ n0 ns', (∀ x, x ∈ n0 :: ns' → 1 ≤ x ≤ Z.of_nat (length (Game.proposals g))) →
     Game.repost_proposal Game.ReturnsNone fuel me (n0 :: ns') g
       = (Raise AttributeError, g)).
Proof.
  intros Hown. split.
  - unfold Game.repost_proposal, Game.repost.
    erewrite bind_Ok by (by apply assert_locked_owned).
    by erewrite bind_Ok by reflexivity.
  - intros Hch n0 ns' Hvalid.
    pose proof (Hvalid _ (foldr_min_elem n0 ns')) as Hfirst.
    unfold Game.repost_proposal, Game.repost.
    erewrite bind_Ok by (by apply assert_locked_owned).
    erewrite bind_Ok by (by apply for_each_check_valid).
    erewrite bind_Ok by reflexivity. cbv zeta.
    set (first := foldr Z.min n0 ns') in *.
    erewrite bind_Ok.
    2:{ apply fetch_messages_Ok; [|by left].
        intros x Hx%elem_of_seqZ. apply get_proposal_is_Some. lia. }
    destruct (omap (message_of g) (seqZ first _)) as [|m ms].
    + erewrite bind_Ok by reflexivity.
      apply bind_Raise.
      rewrite seqZ_cons by lia. cbn [for_each].
      apply bind_Raise. by apply send_unbound.
    + apply bind_Raise. unfold Game.delete_messages. run_game. by rewrite Hch.
Qed.

Lemma repost_proposal_refuses_witness :
  Game.repost_proposal Game.RaisesNotFound 0 7 [] game3
    = (Raise (ValueError EmptyMin), game3).
Proof. apply (repost_proposal_refuses Game.RaisesNotFound 0 7 game3). reflexivity. Defined.

Lemma assert_locked_other (me : Z) (g : Game.t) :
  Game.owned_thread_id g ≠ Owned me →
  Game.assert_locked me g = (Raise (lock_error (Game.owned_thread_id g)), g).
Proof. intros H. unfold Game.assert_locked. by rewrite check_stamp_other. Qed.

(** X15. The operations of the game that write do nothing without the
    lock: when the stamp is not the caller's, [refresh_proposal],
    [repost_proposal] and [record_activity] end in the exception of
    [assert_locked] (an [AttributeError] on a game that was never entered, a
    [RuntimeError] otherwise), whatever their arguments, valid or not, and
    however [fetch_message] answers; the game is as before. *)
Theorem game_writers_need_lock (me : Z) (g : Game.t) :
  Game.owned_thread_id g ≠ Owned me →
  let e := lock_error (Game.owned_thread_id g) in
  (∀ how fuel ns, Game.refresh_proposal how (S fuel) me ns g = (Raise e, g)) ∧
  (∀ how fuel ns, Game.repost_proposal how fuel me ns g = (Raise e, g)) ∧
  (∀ now user, Activity.record_activity me now user g = (Raise e, g)).
Proof.
  intros H. cbv zeta. split_and!; intros;
    by apply bind_Raise, assert_locked_other.
Qed.

Lemma game_writers_need_lock_witness :
  Game.refresh_proposal Game.ReturnsNone 1 8 [1; 9] game3 = (Raise RuntimeError, game3) ∧
  Activity.record_activity 7 1000 42 game0 = (Raise AttributeError, game0).
Proof.
  split.
  - destruct (game_writers_need_lock 8 game3) as (H & _ & _); [discriminate|].
    apply (H Game.ReturnsNone 0%nat).
  - destruct (game_writers_need_lock 7 game0) as (_ & _ & H); [discriminate|].
    apply H.
Defined.

(** ** The loader on any store *)

Lemma store_keys_size {V} (D : list (string * V)) : (size (store_keys D) ≤ length D)%nat.
Proof.
  unfold store_keys. induction D as [|[k v] D IH]; cbn [fmap list_fmap list_to_set length].
  - by rewrite size_empty.
  - rewrite size_union_alt, size_singleton.
    pose proof (subseteq_size (list_to_set D.*1 ∖ {[k]}) (list_to_set D.*1 : gset string)) as H.
    assert (size (list_to_set D.*1 ∖ ({[k]} : gset string)) ≤ size (list_to_set D.*1 : gset string))%nat
      by (apply H; intros x [Hx _]%elem_of_difference; exact Hx).
    simpl in *. lia.
Qed.

Lemma tree_inv_size (D : list (string * Rule.persisted)) (R : gmap string Rule.t) :
  tree_inv D R → (size R ≤ size (store_keys D))%nat.
Proof.
  intros [Hent _]. rewrite <- size_dom. apply subseteq_size.
  intros k [r Hr]%elem_of_dom. unfold store_keys. apply elem_of_list_to_set.
  destruct (decide (k ∈ D.*1)) as [?|Hk]; [done|].
  apply dict_get_None in Hk. specialize (Hent k r Hr). by rewrite Hk in Hent.
Qed.

Lemma tree_inv_insert (D : list (string * Rule.persisted)) (R : gmap string Rule.t)
    (tag : string) (e : Rule.persisted) :
  tree_inv D R → dict_get D tag = Some e → R !! tag = None →
  (Rule.tag (Rule.init e) ≠ "root" →
     ∃ parent, Rule.parent R (Rule.init e) = Some parent ∧
               Rule.tag (Rule.init e) ∈ Rule.children parent) →
  tree_inv D (<[tag := Rule.init e]> R).
Proof.
  intros [Hent Hpar] He Hnew Hkeep. split.
  - intros k r [[<- <-]|[Hne Hr]]%lookup_insert_Some; [by rewrite He|by apply Hent].
  - intros k r [[<- <-]|[Hne Hr]]%lookup_insert_Some Hroot.
    + destruct (Hkeep Hroot) as (parent & Hp & Hin).
      unfold Rule.parent in Hp. destruct (Rule.parent_tag (Rule.init e)) as [p|] eqn:Ep; [|done].
      cbn [mbind option_bind] in Hp.
      exists p, parent. split_and!; [done| |done].
      rewrite lookup_insert_ne; [done|]. intros <-. congruence.
    + destruct (Hpar k r Hr Hroot) as (p & pr & Hp & Hpr & Hin).
      exists p, pr. split_and!; [done| |done].
      rewrite lookup_insert_ne; [done|]. intros <-. congruence.
Qed.

Lemma for_each_load_safe (D : list (string * Rule.persisted)) (g0 : Game.t) (f : nat) :
  (∀ R ws tag, tree_inv D R → (size (store_keys D) < f + size R)%nat →
     load_safe D g0 R (Game._load_rule f D tag (loaded g0 R ws))) →
  ∀ cs R ws, tree_inv D R → (size (store_keys D) < f + size R)%nat →
    load_safe D g0 R (for_each cs (Game._load_rule f D) (loaded g0 R ws)).
Proof.
  intros IHf. induction cs as [|c cs IHcs]; intros R ws Hinv Hsize.
  - exists (Ok ()), R, ws. split_and!; [done|by left|done..].
  - destruct (IHf R ws c Hinv Hsize) as (o2 & R2 & ws2 & Hrun2 & [->| ->] & H12 & Hinv2).
    + destruct (IHcs R2 ws2 Hinv2) as (o3 & R3 & ws3 & Hrun3 & Ho3 & H23 & Hinv3).
      { apply map_subseteq_size in H12. lia. }
      exists o3, R3, ws3. split_and!; [|done|by etrans|done].
      cbn [for_each]. by erewrite bind_Ok by exact Hrun2.
    + exists (Raise AttributeError), R2, ws2. split_and!; [|by right|done..].
      cbn [for_each]. by apply bind_Raise.
Qed.

Lemma load_rule_safe (D : list (string * Rule.persisted)) (g0 : Game.t) (fuel : nat) :
  ∀ R ws tag, tree_inv D R → (size (store_keys D) < fuel + size R)%nat →
    load_safe D g0 R (Game._load_rule fuel D tag (loaded g0 R ws)).
Proof.
  induction fuel as [|f IHf]; intros R ws tag Hinv Hsize.
  { apply tree_inv_size in Hinv. lia. }
  cbn [Game._load_rule].
  destruct (dict_get D tag) as [e|] eqn:He.
  2:{ exists (Ok ()), R, (ws ++ [Game.NoSuchRule tag]). split_and!; [done|by left|done..]. }
  erewrite bind_Ok by reflexivity.
  change (Game.rules (loaded g0 R ws)) with R.
  destruct (decide (is_Some (R !! tag))) as [Hin|Hnew].
  { exists (Ok ()), R, (ws ++ [Game.Repetition tag]). split_and!; [done|by left|done..]. }
  apply eq_None_not_Some in Hnew.
  assert ((Rule.tag (Rule.init e) ≠ "root" →
             ∃ parent, Rule.parent R (Rule.init e) = Some parent ∧
                       Rule.tag (Rule.init e) ∈ Rule.children parent) →
          load_safe D g0 R
            ((modify (λ g, Game.with_rules g (<[tag := Rule.init e]> (Game.rules g)));;
              for_each (Rule.children (Rule.init e)) (Game._load_rule f D))
               (loaded g0 R ws))) as Hkept.
  { intros Hkeep. erewrite bind_Ok by reflexivity.
    change (Game.with_rules (loaded g0 R ws)
              (<[tag:=Rule.init e]> (Game.rules (loaded g0 R ws))))
      with (loaded g0 (<[tag:=Rule.init e]> R) ws).
    destruct (for_each_load_safe D g0 f IHf (Rule.children (Rule.init e))
                (<[tag:=Rule.init e]> R) ws)
      as (o & R' & ws' & Hrun & Ho & Hsub & Hinv').
    { by apply tree_inv_insert. }
    { rewrite map_size_insert_None by done. lia. }
    exists o, R', ws'. split_and!; [done..| |done].
    etrans; [|done]. by apply insert_subseteq. }
  destruct (decide (Rule.tag (Rule.init e) ≠ "root")) as [Hroot|Hroot].
  - destruct (Rule.parent R (Rule.init e)) as [parent|] eqn:Ep.
    + destruct (decide (Rule.tag (Rule.init e) ∈ Rule.children parent)) as [Hc|Hc].
      * erewrite bind_Ok by reflexivity. cbv beta iota.
        apply Hkept. intros _. by exists parent.
      * exists (Ok ()), R, (ws ++ [Game.NotAChild tag (Rule.tag parent)]).
        split_and!; [done|by left|done..].
    + exists (Raise AttributeError), R, (ws ++ [Game.NoParent tag]).
      split_and!; [done|by right|done..].
  - erewrite bind_Ok by reflexivity. cbv beta iota. by apply Hkept.
Qed.

Lemma tree_inv_empty (D : list (string * Rule.persisted)) : tree_inv D ∅.
Proof. split; intros k r Hk; by rewrite lookup_empty in Hk. Qed.

Lemma loaded_inj (g0 : Game.t) (R R' : gmap string Rule.t) (ws ws' : list Game.warning) :
  loaded g0 R ws = loaded g0 R' ws' → R = R' ∧ ws = ws'.
Proof.
  intros H. split.
  - by apply (f_equal Game.rules) in H.
  - by apply (f_equal (λ g, Game.warnings (Game.guild g))) in H.
Qed.

(** The root, when the store has it and the load ends normally, is kept. *)
Lemma load_root_kept (D : list (string * Rule.persisted)) (g0 : Game.t) (n : nat)
    (ws ws' : list Game.warning) (R' : gmap string Rule.t) (e : Rule.persisted) :
  (size (store_keys D) ≤ n)%nat →
  dict_get D "root" = Some e →
  Game._load_rule (S n) D "root" (loaded g0 ∅ ws) = (Ok (), loaded g0 R' ws') →
  R' !! "root" = Some (Rule.init e).
Proof.
  intros Hn He. cbn [Game._load_rule]. rewrite He.
  erewrite bind_Ok by reflexivity.
  change (Game.rules (loaded g0 ∅ ws)) with (∅ : gmap string Rule.t).
  destruct (decide (is_Some ((∅ : gmap string Rule.t) !! "root"))) as [[? Hin]|_];
    [by rewrite lookup_empty in Hin|].
  assert (Rule.parent ∅ (Rule.init e) = None) as Hp.
  { unfold Rule.parent. by destruct (Rule.parent_tag (Rule.init e)). }
  destruct (decide (Rule.tag (Rule.init e) ≠ "root")) as [Hroot|Hroot].
  { rewrite Hp. intros [=]. }
  erewrite bind_Ok by reflexivity. cbv beta iota.
  erewrite bind_Ok by reflexivity.
  change (Game.with_rules (loaded g0 ∅ ws)
            (<["root":=Rule.init e]> (Game.rules (loaded g0 ∅ ws))))
    with (loaded g0 (<["root":=Rule.init e]> ∅) ws).
  destruct (for_each_load_safe D g0 n (load_rule_safe D g0 n) (Rule.children (Rule.init e))
              (<["root":=Rule.init e]> ∅) ws)
    as (o & R2 & ws2 & Hrun & Ho & Hsub & Hinv').
  { apply tree_inv_insert; [apply tree_inv_empty|done|apply lookup_empty|done]. }
  { rewrite map_size_insert_None by apply lookup_empty. rewrite map_size_empty. lia. }
  rewrite Hrun. intros Heq. apply (f_equal snd) in Heq. cbn [snd] in Heq.
  apply loaded_inj in Heq as [-> ->].
  eapply lookup_weaken; [|done]. apply lookup_insert_eq.
Qed.

(** X16. [Game.__init__] on any store, whatever its rules mapping holds
    (children lists that loop, keys that are missing, entries under a key
    that is not their tag): the construction always ends, normally or in
    the [AttributeError] of a rule with no parent to be found. Every rule
    it has kept is the stored entry of its key, and every kept rule whose
    tag is not the root's has its parent in the table and is listed among
    that parent's children. A store without a root entry gives an empty
    table and one warning; a store with one, when the construction ends
    normally, gives a table that holds it. *)
Theorem init_any_store (guild : Game.world) (store : Game.snapshot) :
  let o := (Game.init guild "ok" store).1 in
  let g := (Game.init guild "ok" store).2 in
  let D := Game.s_rules store in
  (o = Ok () ∨ o = Raise AttributeError) ∧
  (∀ k r, Game.rules g !! k = Some r → Rule.init <$> dict_get D k = Some r) ∧
  (∀ k r, Game.rules g !! k = Some r → Rule.tag r ≠ "root" →
     ∃ p pr, Rule.parent_tag r = Some p ∧ Game.rules g !! p = Some pr ∧
             Rule.tag r ∈ Rule.children pr) ∧
  (dict_get D "root" = None →
     o = Ok () ∧ Game.rules g = ∅ ∧
     Game.warnings (Game.guild g) = Game.warnings guild ++ [Game.NoSuchRule "root"]) ∧
  (∀ e, dict_get D "root" = Some e → o = Ok () →
     Game.rules g !! "root" = Some (Rule.init e)).
Proof.
  cbv zeta. unfold Game.init.
  destruct (decide ("ok" ≠ "ok")) as [?|_]; [done|].
  destruct guild as [chs ms nx tr ws0], store as [ch pa qs ps D].
  cbn [Game.s_rules Game.s_proposals Game.s_quantities Game.s_player_activity
       Game.s_channels Game.warnings].
  set (g0 := Game.mk false Unassigned (Game.mk_world chs ms nx tr ws0) _ _ _ ∅ ∅ None None).
  assert (g0 = loaded g0 ∅ ws0) as Hg0 by reflexivity.
  destruct (load_rule_safe D g0 (S (length D)) ∅ ws0 "root")
    as (o & R' & ws' & Hrun & Ho & _ & [Hent Hpar]).
  { apply tree_inv_empty. }
  { pose proof (store_keys_size D). lia. }
  pose proof Hrun as Hrun'. rewrite <- Hg0 in Hrun.
  destruct Ho as [-> | ->].
  - erewrite !bind_Ok by exact Hrun. cbn.
    split_and!; [by left|done..| |].
    + intros Hnone. cbn [Game._load_rule] in Hrun'. rewrite Hnone in Hrun'.
      apply (f_equal snd) in Hrun'. cbn [snd] in Hrun'.
      by apply loaded_inj in Hrun' as [<- <-].
    + intros e He _. eapply load_root_kept; [|done..]. apply store_keys_size.
  - erewrite !bind_Raise by exact Hrun. cbn.
    split_and!; [by right|done..| |].
    + intros Hnone. cbn [Game._load_rule] in Hrun'. by rewrite Hnone in Hrun'.
    + by intros e _ [=].
Qed.

(** ** Reloading what the loader built *)






Section reload.
Context (D D' : list (string * Rule.persisted)) (T : gmap string Rule.t).
Context (HT : tree_inv D T).
Context (HD' : ∀ k, dict_get D' k = Rule.export <$> T !! k).

End reload.




(** The rule table of [game4] holds [b], which two of its rules list: it is
    not a tree, and it comes back all the same. *)
Example game4_rules_shared :
  Game.rules game4 !! "b" = Some (Rule.mk "b" (Some "B") (Some "text") (Some "root") []) ∧
  (Rule.children <$> Game.rules game4 !! "root") = Some ["a"; "b"] ∧
  (Rule.children <$> Game.rules game4 !! "a") = Some ["b"] ∧
  ¬ rules_ok (Game.rules game4).
Proof.
  split_and!; [vm_compute; reflexivity..|].
  intros Hok.
  assert ("root" = "a") as Habs; [|done].
  eapply (rules_one_parent _ Hok "b" "root" "a"); [by eexists| | | |].
  - vm_compute. reflexivity.
  - vm_compute. reflexivity.
  - right. left.
  - left.
Qed.

(** The alias list itself is not kept: registered as [pts], [p], the aliases
    of [points] come back as [p], [pts]. *)
Example export_reload_sorts_aliases :
  ∃ g', Game.init (Game.guild game2) "ok" (Game.export game2) = (Ok (), g') ∧
    (Quantity.aliases <$> dict_get (Game.quantities game2) "points") = Some ["pts"; "p"] ∧
    (Quantity.aliases <$> dict_get (Game.quantities g') "points") = Some ["p"; "pts"].
Proof.
  eexists. split; [vm_compute; reflexivity|].
  split; [reflexivity|]. vm_compute. reflexivity.
Qed.

(** ** The snapshot of a game *)

Lemma get_channel_bound (w : Game.world) (id : option Z) :
  (∀ c, id = Some c → c ∈ Game.guild_channels w) → Game.get_channel w id = id.
Proof.
  intros H. destruct id as [c|]; [|done]. cbn.
  rewrite decide_True; [done|]. by apply H.
Qed.

(** X17. Saving, restarting and saving again writes nothing new. For a game
    whose quantities have distinct keys, whose rule table is well formed and
    whose channels are channels of the guild, the game that [__init__]
    builds from [export] ends construction normally, is not locked, holds
    the snapshot as its store, and exports to that same snapshot. *)
Theorem game_export_stable (g : Game.t) :
  NoDup (Game.quantities g).*1 →
  rules_ok (Game.rules g) →
  (∀ c, Game.proposals_channel g = Some c → c ∈ Game.guild_channels (Game.guild g)) →
  (∀ c, Game.rules_channel g = Some c → c ∈ Game.guild_channels (Game.guild g)) →
  ∃ g', Game.init (Game.guild g) "ok" (Game.export g) = (Ok (), g') ∧
    Game.export g' = Game.export g ∧
    Game.db g' = Game.export g ∧
    Game._lock g' = false ∧ Game.owned_thread_id g' = Unassigned.
Proof.
  intros Hnd Hok Hpc Hrc.
  set (store := Game.export g).
  set (g0 := Game.mk false Unassigned (Game.guild g) store
               (Proposal.init <$> Game.s_proposals store)
               (prod_map id Quantity.init <$> Game.s_quantities store)
               ∅ ∅ None None).
  destruct (load_rule_rebuilds (Game.rules g) (Game.s_rules store)
              (exported_rules_lookup (Game.rules g)) Hok
              (S (length (Game.s_rules store))) g0
              (Game.warnings (Game.guild g))) as [ws' Hload].
  { unfold store. cbn [Game.s_rules Game.export]. rewrite exported_rules_length. lia. }
  assert (loaded g0 ∅ (Game.warnings (Game.guild g)) = g0) as Hg0.
  { unfold loaded, g0. cbn. by destruct (Game.guild g). }
  rewrite Hg0 in Hload.
  eexists. split.
  { unfold Game.init. rewrite decide_False by (by intros []).
    fold store. cbv zeta. fold g0.
    erewrite bind_Ok by exact Hload. reflexivity. }
  split_and!; [|done..].
  unfold Game.export at 1.
  cbn [Game.proposals Game.quantities Game.rules Game.player_activity
       Game.proposals_channel Game.rules_channel loaded
       Game.with_guild Game.with_rules g0].
  unfold store.
  cbn [Game.s_proposals Game.s_quantities Game.s_player_activity Game.s_channels
       Game.export fst snd].
  rewrite !get_channel_bound by done.
  rewrite PlayerDict_init_export, export_init_sorted_export by done.
  assert (Proposal.export <$> (Proposal.init <$> (Proposal.export <$> Game.proposals g))
          = Proposal.export <$> Game.proposals g) as ->; [|done].
  rewrite <- !list_fmap_compose. apply list_fmap_ext. intros ? p _. cbn.
  by rewrite Proposal_init_export.
Qed.

Lemma game_export_stable_witness :
  ∃ g', Game.init (Game.guild game2) "ok" (Game.export game2) = (Ok (), g') ∧
    Game.export g' = Game.export game2.
Proof.
  destruct (game_export_stable game2) as (g' & H1 & H2 & _).
  - apply (bool_decide_unpack _). vm_compute. exact I.
  - apply rules2_ok.
  - intros c [= <-]. apply (bool_decide_unpack _). vm_compute. exact I.
  - intros c [= <-]. apply (bool_decide_unpack _). vm_compute. exact I.
  - exists g'. split; [exact H1|exact H2].
Defined.

(** ** Rule lookups *)

Lemma append_cons (c : ascii) (s t : string) : String c s +:+ t = String c (s +:+ t).
Proof. reflexivity. Qed.

Lemma append_empty_l (s : string) : EmptyString +:+ s = s.
Proof. reflexivity. Qed.

Lemma append_empty_r (s : string) : s +:+ EmptyString = s.
Proof. induction s as [|c s IH]; [done|]. by rewrite append_cons, IH. Qed.

Lemma take_drop_while (cls : ascii → bool) (s : string) :
  take_while cls s +:+ drop_while cls s = s.
Proof.
  induction s as [|c s IH]; simpl; [done|].
  destruct (cls c); [by rewrite append_cons, IH|done].
Qed.

Lemma all_chars_take_while (cls : ascii → bool) (s : string) :
  all_chars cls (take_while cls s) = true.
Proof.
  induction s as [|c s IH]; simpl; [done|].
  destruct (cls c) eqn:E; simpl; [by rewrite E|done].
Qed.

Lemma take_drop_while_app (cls : ascii → bool) (body rest : string) :
  all_chars cls body = true →
  (rest = EmptyString ∨ ∃ c r, rest = String c r ∧ cls c = false) →
  take_while cls (body +:+ rest) = body ∧ drop_while cls (body +:+ rest) = rest.
Proof.
  intros Hbody Hrest. induction body as [|c body IH].
  - rewrite append_empty_l.
    destruct Hrest as [->|(c & r & -> & Hc)]; simpl; [done|]. by rewrite Hc.
  - simpl in Hbody. apply andb_true_iff in Hbody as [Hc Hbody].
    rewrite append_cons. simpl. rewrite Hc.
    destruct (IH Hbody) as [-> ->]. done.
Qed.

Lemma re_match_tag_spec (tag : string) :
  re_match_tag tag = true ↔
  ∃ body, body ≠ EmptyString ∧ all_chars tag_char body = true ∧
          (tag = body ∨ tag = body +:+ newline).
Proof.
  unfold re_match_tag. split.
  - pose proof (take_drop_while tag_char tag) as Htd.
    pose proof (all_chars_take_while tag_char tag) as Hall.
    destruct (take_while tag_char tag) as [|c body] eqn:E; [done|].
    intros [Hrest|Hrest]%orb_true_iff; apply bool_decide_eq_true in Hrest;
      rewrite Hrest in Htd; exists (String c body); split_and!; try done.
    + left. by rewrite append_empty_r in Htd.
    + by right.
  - intros (body & Hne & Hall & [-> | ->]).
    + destruct (take_drop_while_app tag_char body EmptyString Hall) as [H1 H2]; [by left|].
      rewrite append_empty_r in H1, H2. rewrite H1, H2.
      destruct body; [done|]. by rewrite bool_decide_eq_true_2.
    + destruct (take_drop_while_app tag_char body newline Hall) as [-> ->].
      { right. by eexists _, _. }
      destruct body; [done|].
      rewrite (bool_decide_eq_true_2 (newline = newline)) by done. apply orb_true_r.
Qed.

Lemma check_rule_cons_ok (g : Game.t) (t : string) (rest : list string) :
  re_match_tag t = true → is_Some (Game.rules g !! t) →
  Rules._check_rule g (t :: rest) = Rules._check_rule g rest.
Proof. intros Hm Hin. cbn [Rules._check_rule]. rewrite Hm. cbn. by rewrite decide_True. Qed.

Lemma check_rule_None (g : Game.t) (tags : list string) :
  Rules._check_rule g tags = None ↔
  ∀ t, t ∈ tags → re_match_tag t = true ∧ is_Some (Game.rules g !! t).
Proof.
  induction tags as [|t tags IH]; cbn [Rules._check_rule].
  - split; [|done]. by intros _ t ?%elem_of_nil.
  - destruct (re_match_tag t) eqn:Hm; cbn [negb].
    + destruct (decide (is_Some (Game.rules g !! t))) as [Hin|Hin].
      * rewrite IH. split.
        -- intros H x [->|Hx]%elem_of_cons; [done|by apply H].
        -- intros H x Hx. apply H. by right.
      * split; [done|]. intros H. destruct (H t) as [_ ?]; [left|done].
    + split; [done|]. intros H. destruct (H t) as [? _]; [left|congruence].
Qed.

(** X18. The rule lookups. The pattern of [_check_rule] takes exactly the
    non-empty strings of lower-case letters and hyphens, and these followed
    by one newline. [_check_rule] returns when every tag is taken by the
    pattern and is a key of the rule table; otherwise it raises for the
    first tag that fails, in the order given, the [ValueError] of the
    pattern coming before the [KeyError] of the table. [get_rule] returns a
    rule exactly when the tag is taken by the pattern and the table holds
    the rule under that very tag; [has_rule] tells whether it does, and
    [root_rule] is the rule held under the root's tag. *)
Theorem check_rule_first_failure (g : Game.t) :
  (∀ tag, re_match_tag tag = true ↔
     ∃ body, body ≠ EmptyString ∧ all_chars tag_char body = true ∧
             (tag = body ∨ tag = body +:+ newline)) ∧
  (∀ tags, Rules._check_rule g tags = None ↔
     ∀ t, t ∈ tags → re_match_tag t = true ∧ is_Some (Game.rules g !! t)) ∧
  (∀ l1 t l2, Rules._check_rule g l1 = None →
     (re_match_tag t = false →
        Rules._check_rule g (l1 ++ t :: l2) = Some (Rules.InvalidTag t)) ∧
     (re_match_tag t = true → Game.rules g !! t = None →
        Rules._check_rule g (l1 ++ t :: l2) = Some (Rules.NoSuchTag t))) ∧
  (∀ tag r, Rules.get_rule g tag = Some r ↔
     re_match_tag tag = true ∧ Game.rules g !! tag = Some r) ∧
  (∀ tag, Rules.has_rule g tag = true ↔ is_Some (Rules.get_rule g tag)) ∧
  Rules.root_rule g = Game.rules g !! "root".
Proof.
  assert (∀ tag, Rules.has_rule g tag = true ↔
            re_match_tag tag = true ∧ is_Some (Game.rules g !! tag)) as Hhas.
  { intros tag. unfold Rules.has_rule.
    pose proof (check_rule_None g [tag]) as H.
    destruct (Rules._check_rule g [tag]).
    - split; [done|]. intros Ht. assert (Some c = None) as Hc; [|done].
      apply H. by intros t ->%list_elem_of_singleton.
    - split; [|done]. intros _. apply H; [done|left]. }
  assert (∀ tag r, Rules.get_rule g tag = Some r ↔
            re_match_tag tag = true ∧ Game.rules g !! tag = Some r) as Hget.
  { intros tag r. unfold Rules.get_rule.
    destruct (Rules.has_rule g tag) eqn:E.
    - apply Hhas in E as [Hm _]. split; [done|by intros [_ ?]].
    - split; [done|]. intros [Hm Hr].
      assert (Rules.has_rule g tag = true) by (apply Hhas; split; [done|by eexists]).
      congruence. }
  split_and!.
  - apply re_match_tag_spec.
  - apply check_rule_None.
  - intros l1 t l2 Hl1.
    assert (Rules._check_rule g (l1 ++ t :: l2) = Rules._check_rule g (t :: l2)) as ->.
    { induction l1 as [|x l1 IH]; [done|].
      pose proof (proj1 (check_rule_None g (x :: l1)) Hl1) as Hall.
      destruct (Hall x) as [Hm Hin]; [left|].
      cbn [app]. rewrite check_rule_cons_ok in Hl1 |- * by done. by apply IH. }
    cbn [Rules._check_rule]. split.
    + by intros ->.
    + intros -> Hnone. cbn. rewrite decide_False; [done|].
      rewrite Hnone. by intros [? ?].
  - done.
  - intros tag. rewrite Hhas. split.
    + intros [Hm [r Hr]]. exists r. by apply Hget.
    + intros [r [Hm Hr]%Hget]. split; [done|by eexists].
  - unfold Rules.root_rule. destruct (Game.rules g !! "root") as [r|] eqn:E.
    + by apply Hget.
    + destruct (Rules.get_rule g "root") as [r|] eqn:E'; [|done].
      apply Hget in E' as [_ ?]. congruence.
Qed.

(** ** Player activity *)

Lemma get_activity_diff_lookup (now : Z) (g : Game.t) (user : Z) :
  Activity.get_activity_diff now g user
    = (λ t, now - t) <$> Game.player_activity g !! user.
Proof.
  unfold Activity.get_activity_diff.
  destruct (decide (is_Some (Game.player_activity g !! user))) as [H|H]; [done|].
  apply eq_None_not_Some in H. by rewrite H.
Qed.

(** X19. [record_activity] under the lock marks the user as seen at the
    time of the call and does not write the store. From then on the user's
    activity difference at a time [t] is [t] minus the time of the call,
    and the user counts as active exactly while that difference is at most
    the cutoff, in hours, times 3600; what the game answers for every other
    user is unchanged, and a user never recorded is inactive at all
    times. *)
Theorem record_activity_marks_active (me now user : Z) (g : Game.t) :
  Game.owned_thread_id g = Owned me →
  ∃ g', Activity.record_activity me now user g = (Ok (), g') ∧
    Game.db g' = Game.db g ∧
    (∀ t, Activity.get_activity_diff t g' user = Some (t - now)) ∧
    (∀ cutoff t, Activity.is_active cutoff t g' user = true ↔ t - now ≤ cutoff * 3600) ∧
    (∀ cutoff t, Activity.is_inactive cutoff t g' user = true ↔ cutoff * 3600 < t - now) ∧
    (∀ t u, u ≠ user →
       Activity.get_activity_diff t g' u = Activity.get_activity_diff t g u) ∧
    (∀ cutoff t u, u ≠ user →
       Activity.is_active cutoff t g' u = Activity.is_active cutoff t g u) ∧
    (∀ cutoff t u, u ≠ user → Game.player_activity g !! u = None →
       Activity.is_inactive cutoff t g' u = true) ∧
    (∀ t u, Activity.activity_diffs t g' !! u = Activity.get_activity_diff t g' u).
Proof.
  intros Hown. eexists. split.
  { unfold Activity.record_activity.
    erewrite bind_Ok by (by apply assert_locked_owned). reflexivity. }
  set (g' := Activity.with_player_activity g (<[user:=now]> (Game.player_activity g))).
  assert (∀ t, Activity.get_activity_diff t g' user = Some (t - now)) as Hdiff.
  { intros t. rewrite get_activity_diff_lookup. cbn. by rewrite lookup_insert_eq. }
  assert (∀ t u, u ≠ user →
            Activity.get_activity_diff t g' u = Activity.get_activity_diff t g u) as Hother.
  { intros t u Hu. rewrite !get_activity_diff_lookup. cbn. by rewrite lookup_insert_ne. }
  split_and!; [done|done| | |done| | |].
  - intros cutoff t. unfold Activity.is_active. cbv zeta. rewrite Hdiff.
    apply bool_decide_eq_true.
  - intros cutoff t. unfold Activity.is_inactive, Activity.is_active. cbv zeta.
    rewrite Hdiff, negb_true_iff, bool_decide_eq_false. lia.
  - intros cutoff t u Hu. unfold Activity.is_active. cbv zeta. by rewrite Hother.
  - intros cutoff t u Hu Hnone. unfold Activity.is_inactive, Activity.is_active. cbv zeta.
    rewrite Hother by done. rewrite get_activity_diff_lookup, Hnone. done.
  - intros t u. unfold Activity.activity_diffs. rewrite map_lookup_imap.
    rewrite get_activity_diff_lookup.
    by destruct (Game.player_activity g' !! u).
Qed.

Lemma record_activity_marks_active_witness :
  ∃ g', Activity.record_activity 7 1000 42 game3 = (Ok (), g') ∧
    Activity.is_active 1 4600 g' 42 = true ∧
    Activity.is_inactive 1 4601 g' 42 = true.
Proof.
  destruct (record_activity_marks_active 7 1000 42 game3) as (g' & H1 & _ & _ & H2 & H3 & _).
  - reflexivity.
  - exists g'. split_and!; [exact H1|apply H2; lia|apply H3; lia].
Defined.

(** ** The registry of games *)

(** X20. [get_game] builds the game of a guild once. For a guild that the
    registry holds, it returns the game held and neither reads the store
    nor changes the registry. For a guild it does not hold, a construction
    that ends normally is registered under the guild's id, the games of the
    other guilds staying as they are, and every later call returns that
    game; a construction that raises registers nothing. *)
Theorem get_game_caches (get_db : Z → Game.snapshot) (guild_id : Z) (guild : Game.world)
    (games : gmap Z Game.t) :
  (∀ g, games !! guild_id = Some g →
     ∀ get_db', Games.get_game get_db' guild_id guild games = (Ok g, games)) ∧
  (games !! guild_id = None →
     ∀ g, Game.init guild "ok" (get_db guild_id) = (Ok (), g) →
       Games.get_game get_db guild_id guild games = (Ok g, <[guild_id := g]> games) ∧
       (∀ other, other ≠ guild_id → <[guild_id := g]> games !! other = games !! other) ∧
       (∀ get_db' guild',
          Games.get_game get_db' guild_id guild' (<[guild_id := g]> games)
            = (Ok g, <[guild_id := g]> games))) ∧
  (games !! guild_id = None →
     ∀ e g, Game.init guild "ok" (get_db guild_id) = (Raise e, g) →
       Games.get_game get_db guild_id guild games = (Raise e, games)).
Proof.
  assert (∀ gs g, gs !! guild_id = Some g →
            ∀ get_db' guild', Games.get_game get_db' guild_id guild' gs = (Ok g, gs)) as Hheld.
  { intros gs g Hg get_db' guild'. unfold Games.get_game.
    erewrite bind_Ok by reflexivity. by rewrite Hg. }
  split_and!.
  - intros g Hg get_db'. by apply Hheld.
  - intros Hnone g Hinit. split_and!.
    + unfold Games.get_game. erewrite bind_Ok by reflexivity.
      rewrite Hnone, Hinit. by erewrite bind_Ok by reflexivity.
    + intros other Hne. by rewrite lookup_insert_ne.
    + intros get_db' guild'. apply Hheld. apply lookup_insert_eq.
  - intros Hnone e g Hinit. unfold Games.get_game.
    erewrite bind_Ok by reflexivity. by rewrite Hnone, Hinit.
Qed.

(** ** The vote command *)

Lemma prefix_spec (n h : string) :
  String.prefix n h = true ↔ ∃ post, h = n +:+ post.
Proof.
  revert h. induction n as [|c n IH]; intros [|c' h]; simpl.
  - split; [|done]. intros _. by exists EmptyString.
  - split; [|done]. intros _. by exists (String c' h).
  - split; [done|]. by intros [post [=]].
  - destruct (Ascii.ascii_dec c c') as [->|Hne].
    + rewrite IH. split; intros [post Hp]; exists post.
      * by rewrite append_cons, Hp.
      * rewrite append_cons in Hp. by injection Hp.
    + split; [done|]. intros [post Hp]. rewrite append_cons in Hp. congruence.
Qed.

Lemma is_substring_spec (n h : string) :
  Voting.is_substring n h = true ↔ ∃ pre post, h = pre +:+ n +:+ post.
Proof.
  induction h as [|c h IH]; cbn [Voting.is_substring].
  - rewrite orb_false_r, prefix_spec. split.
    + intros [post Hp]. by exists EmptyString, post.
    + intros (pre & post & Hp). destruct pre as [|c' pre].
      * by exists post.
      * by rewrite append_cons in Hp.
  - rewrite orb_true_iff, prefix_spec, IH. split.
    + intros [[post Hp]|(pre & post & Hp)].
      * by exists EmptyString, post.
      * exists (String c pre), post. by rewrite append_cons, Hp.
    + intros (pre & post & Hp). destruct pre as [|c' pre].
      * left. by exists post.
      * right. exists pre, post. rewrite append_cons in Hp. by injection Hp.
Qed.

(** X21. The [vote] command. A caller who is not a bot admin and names
    another user is refused with [MissingPermissions], whatever the vote
    type, valid or not. Otherwise the lower-cased vote type decides: [for]
    and [+] vote for, [against] and [-] against, [remove], [del], [delete]
    and [rm] remove; every string that occurs inside [abstain], the empty
    string among them, abstains; anything else is a [UserInputError] and no
    vote is cast. A vote is cast once for each proposal id, in the order
    given, for the user named (the caller when none is), on behalf of the
    caller, with the amount given (1 when none is) and the reason. *)
Theorem vote_dispatch (author : Z) (is_bot_admin : bool) (user amount : option Z)
    (vote_type : string) (proposal_nums : list Z) (reason : string) :
  let target := default author user in
  let calls kind :=
    (λ n, Voting.mk_call n kind target author (default 1 amount) reason)
      <$> proposal_nums in
  let vt := lower vote_type in
  let r := Voting.vote author is_bot_admin user amount vote_type proposal_nums reason in
  (target ≠ author → is_bot_admin = false → r = Voting.MissingPermissions) ∧
  (target = author ∨ is_bot_admin = true →
     (vt ∈ ["for"; "+"] → r = Voting.Voted (calls "for")) ∧
     (vt ∈ ["against"; "-"] → r = Voting.Voted (calls "against")) ∧
     ((∃ pre post, "abstain" = pre +:+ vt +:+ post) → r = Voting.Voted (calls "abstain")) ∧
     (vt ∈ ["remove"; "del"; "delete"; "rm"] → r = Voting.Voted (calls "remove")) ∧
     (vt ∉ ["for"; "+"] → vt ∉ ["against"; "-"] →
      (¬ ∃ pre post, "abstain" = pre +:+ vt +:+ post) →
      vt ∉ ["remove"; "del"; "delete"; "rm"] → r = Voting.UserInputError)).
Proof.
  cbv zeta. unfold Voting.vote. cbv zeta.
  change (if user is Some u then u else author) with (default author user).
  change (if amount is Some a then a else 1) with (default 1 amount).
  generalize (lower vote_type). intros vt. split.
  - intros Hne ->. by rewrite bool_decide_eq_true_2.
  - intros Hperm.
    assert (bool_decide (default author user ≠ author) && negb is_bot_admin = false) as ->.
    { destruct Hperm as [-> | ->]; [|apply andb_false_r].
      by rewrite bool_decide_eq_false_2 by (by intros []). }
    split_and!.
    + intros H. by rewrite bool_decide_eq_true_2.
    + intros [-> | ->%list_elem_of_singleton]%elem_of_cons; reflexivity.
    + intros Hsub%is_substring_spec.
      case_bool_decide as H1.
      { apply elem_of_cons in H1 as [-> | ->%list_elem_of_singleton];
          vm_compute in Hsub; discriminate. }
      case_bool_decide as H2.
      { apply elem_of_cons in H2 as [-> | ->%list_elem_of_singleton];
          vm_compute in Hsub; discriminate. }
      by rewrite Hsub.
    + intros H.
      apply elem_of_cons in H as [-> | H]; [reflexivity|].
      apply elem_of_cons in H as [-> | H]; [reflexivity|].
      apply elem_of_cons in H as [-> | ->%list_elem_of_singleton]; reflexivity.
    + intros H1 H2 H3 H4.
      rewrite !bool_decide_eq_false_2 by done.
      destruct (Voting.is_substring vt "abstain") eqn:E; [|done].
      exfalso. apply H3. by apply is_substring_spec.
Qed.

(** ** The lock protocol *)

(** X22. The lock excludes. Once a caller has entered the game, every
    [__aenter__] waits, another entry of the same caller included, and
    [assert_locked] passes for that caller and for no other one. Entering
    and leaving change the lock and the stamp and nothing else: the export
    of the game and its store are as before. After [__aexit__] any caller
    can enter, and a second [__aexit__] raises [RuntimeError]. *)
Theorem lock_excludes (me : Z) (g g1 : Game.t) :
  Game.__aenter__ me g = Some g1 →
  (∀ other, Game.__aenter__ other g1 = None) ∧
  Game.assert_locked me g1 = (Ok (), g1) ∧
  (∀ other, other ≠ me → Game.assert_locked other g1 = (Raise RuntimeError, g1)) ∧
  Game.export g1 = Game.export g ∧ Game.db g1 = Game.db g ∧
  ∃ g2, Game.__aexit__ g1 = (Ok (), g2) ∧
    Game.export g2 = Game.export g ∧ Game.db g2 = Game.db g ∧
    (∀ other, Game.assert_locked other g2 = (Raise RuntimeError, g2)) ∧
    (∀ other, ∃ g3, Game.__aenter__ other g2 = Some g3 ∧
                    Game.owned_thread_id g3 = Owned other) ∧
    Game.__aexit__ g2 = (Raise RuntimeError, g2).
Proof.
  unfold Game.__aenter__. destruct (Game._lock g) eqn:Hl; [done|].
  intros [= <-]. split_and!; [done| | |done|done|].
  - apply assert_locked_owned. reflexivity.
  - intros other Hne. rewrite assert_locked_other; [done|]. cbn. congruence.
  - eexists. split; [reflexivity|]. split_and!; [done|done| | |done].
    + intros other. by rewrite assert_locked_other.
    + intros other. eexists. split; reflexivity.
Qed.

Lemma lock_excludes_witness :
  ∃ g1, Game.__aenter__ 7 game0 = Some g1 ∧ Game.__aenter__ 7 g1 = None ∧
        Game.assert_locked 8 g1 = (Raise RuntimeError, g1).
Proof.
  eexists. split; [reflexivity|].
  destruct (lock_excludes 7 game0 _ eq_refl) as (H1 & _ & H2 & _).
  split; [apply H1|apply H2; lia].
Defined.
